(** * The Search integration: finding related items

    A shallow embedding of [homeassistant/components/search/__init__.py]
    (class [Searcher]) and the properties of its worklist search.

    Identifiers and kind names are Python strings, modelled as [string].
    [Searcher.results] is a [defaultdict(set)], modelled as a
    [gmap string (gset string)] read through [getitem];
    [Searcher._to_resolve] is a [set] of pairs, modelled as a
    [gset (string * string)]. *)

From Stdlib Require Import Ascii String.
From stdpp Require Import gmap strings list fin_maps fin_sets.

Open Scope string_scope.

(** ** Exceptions and outcomes *)

(** The two exceptions the searcher can raise: [getattr] on a name that is
    not a method, and [set.remove] of an absent element. *)
Inductive exn : Type :=
  | AttributeError
  | KeyError.

Inductive outcome (A : Type) : Type :=
  | Returns (a : A)
  | Raises (e : exn).

Arguments Returns {A} a.
Arguments Raises {A} e.

(** ** Registry entries *)

(** The attributes of a device registry entry the searcher reads. *)
Module DeviceEntry.
Record t : Type := Build {
  id : string;
  area_id : option string;
  config_entries : list string
}.
End DeviceEntry.

(** The attributes of an entity registry entry the searcher reads. *)
Module EntityEntry.
Record t : Type := Build {
  entity_id : string;
  device_id : option string;
  config_entry_id : option string
}.
End EntityEntry.

(** Python truthiness of an optional string: [None] and the empty string
    are both false. *)
Definition truthy (o : option string) : bool :=
  match o with
  | None => false
  | Some s => if decide (s = "") then false else true
  end.

(** ** The collaborators

    Everything the searcher queries and never mutates: the two registries,
    the scene and group helpers that take [hass], and [split_entity_id] of
    [homeassistant.core].  They are imported by the source file and are
    taken here as parameters, one field per call site. *)
Record Env : Type := {
  (* device_registry.async_entries_for_area(self._device_reg, area_id) *)
  async_entries_for_area : string → list DeviceEntry.t;
  (* self._device_reg.async_get(device_id) *)
  device_reg_async_get : string → option DeviceEntry.t;
  (* entity_registry.async_entries_for_device(self._entity_reg, device_id) *)
  async_entries_for_device : string → list EntityEntry.t;
  (* self._entity_reg.async_get(entity_id) *)
  entity_reg_async_get : string → option EntityEntry.t;
  (* scene.scenes_with_entity(self.hass, entity_id) *)
  scenes_with_entity : string → list string;
  (* group.groups_with_entity(self.hass, entity_id) *)
  groups_with_entity : string → list string;
  (* group.get_entity_ids(self.hass, group_entity_id) *)
  get_entity_ids : string → list string;
  (* scene.entities_in_scene(self.hass, scene_entity_id) *)
  entities_in_scene : string → list string;
  (* device_registry.async_entries_for_config_entry(self._device_reg, id) *)
  device_entries_for_config_entry : string → list DeviceEntry.t;
  (* entity_registry.async_entries_for_config_entry(self._entity_reg, id) *)
  entity_entries_for_config_entry : string → list EntityEntry.t;
  (* split_entity_id(entity_id): the pair (domain, object id) *)
  split_entity_id : string → string * string
}.

(** ** The searcher state *)

Abbreviation node := (string * string)%type.

Record Searcher : Type := {
  results : gmap string (gset string);
  _to_resolve : gset node
}.

(** [Searcher.__init__]: both containers start empty. *)
Definition new_Searcher : Searcher :=
  {| results := ∅; _to_resolve := ∅ |}.

(** Reading [self.results[key]] of a [defaultdict(set)]: a missing key reads
    as the empty set.  (The read also stores that empty set under the key;
    the only place where the keys are looked at is the last line of
    [async_search], which drops every empty bucket.) *)
Definition getitem (r : gmap string (gset string)) (key : string) : gset string :=
  default ∅ (r !! key).

(** [DONT_RESOLVE]: these types won't be further explored. *)
Definition DONT_RESOLVE : gset string :=
  {[ "scene"; "automation"; "script"; "group"; "config_entry"; "area" ]}.

(** [Searcher._add_or_resolve]: add an item to explore. *)
Definition _add_or_resolve (item_type item_id : string) (self : Searcher) : Searcher :=
  if decide (item_id ∈ getitem (results self) item_type) then self
  else
    let results' :=
      <[item_type := {[item_id]} ∪ getitem (results self) item_type]> (results self) in
    if decide (item_type ∈ DONT_RESOLVE)
    then {| results := results'; _to_resolve := _to_resolve self |}
    else {| results := results';
            _to_resolve := {[(item_type, item_id)]} ∪ _to_resolve self |}.

Section WithEnv.

Variable env : Env.

(** [Searcher._resolve_area] *)
Definition _resolve_area (area_id : string) (self : Searcher) : Searcher :=
  foldl (λ self device, _add_or_resolve "device" (DeviceEntry.id device) self)
        self (async_entries_for_area env area_id).

(** [Searcher._resolve_device] *)
Definition _resolve_device (device_id : string) (self : Searcher) : Searcher :=
  let self :=
    match device_reg_async_get env device_id with
    | Some device_entry =>
        let self :=
          if truthy (DeviceEntry.area_id device_entry)
          then _add_or_resolve "area"
                 (default "" (DeviceEntry.area_id device_entry)) self
          else self in
        foldl (λ self config_entry_id,
                 _add_or_resolve "config_entry" config_entry_id self)
              self (DeviceEntry.config_entries device_entry)
    | None => self
    end in
  foldl (λ self entity_entry,
           _add_or_resolve "entity" (EntityEntry.entity_id entity_entry) self)
        self (async_entries_for_device env device_id).

(** [Searcher._resolve_entity] *)
Definition _resolve_entity (entity_id : string) (self : Searcher) : Searcher :=
  let self :=
    foldl (λ self entity, _add_or_resolve "entity" entity self)
          self (scenes_with_entity env entity_id) in
  let self :=
    foldl (λ self entity, _add_or_resolve "entity" entity self)
          self (groups_with_entity env entity_id) in
  let self :=
    match entity_reg_async_get env entity_id with
    | Some entity_entry =>
        let self :=
          if truthy (EntityEntry.device_id entity_entry)
          then _add_or_resolve "device"
                 (default "" (EntityEntry.device_id entity_entry)) self
          else self in
        match EntityEntry.config_entry_id entity_entry with
        | Some config_entry_id =>
            _add_or_resolve "config_entry" config_entry_id self
        | None => self
        end
    | None => self
    end in
  let domain := (split_entity_id env entity_id).1 in
  if decide (domain ∈ ["scene"; "automation"; "script"; "group"])
  then _add_or_resolve domain entity_id self
  else self.

(** [Searcher._resolve_automation]: the body is a docstring only. *)
Definition _resolve_automation (automation_entity_id : string)
    (self : Searcher) : Searcher := self.

(** [Searcher._resolve_script]: the body is a docstring only. *)
Definition _resolve_script (script_entity_id : string)
    (self : Searcher) : Searcher := self.

(** [Searcher._resolve_group] *)
Definition _resolve_group (group_entity_id : string) (self : Searcher) : Searcher :=
  foldl (λ self entity_id, _add_or_resolve "entity" entity_id self)
        self (get_entity_ids env group_entity_id).

(** [Searcher._resolve_scene] *)
Definition _resolve_scene (scene_entity_id : string) (self : Searcher) : Searcher :=
  foldl (λ self entity, _add_or_resolve "entity" entity self)
        self (entities_in_scene env scene_entity_id).

(** [Searcher._resolve_config_entry] *)
Definition _resolve_config_entry (config_entry_id : string)
    (self : Searcher) : Searcher :=
  let self :=
    foldl (λ self device_entry,
             _add_or_resolve "device" (DeviceEntry.id device_entry) self)
          self (device_entries_for_config_entry env config_entry_id) in
  foldl (λ self entity_entry,
           _add_or_resolve "entity" (EntityEntry.entity_id entity_entry) self)
        self (entity_entries_for_config_entry env config_entry_id).

(** [getattr(self, f"_resolve_{search_type}")(search_id)]: the class has
    the eight [_resolve_*] methods above and no other attribute of that
    form; any other name raises [AttributeError]. *)
Definition resolve (search_type search_id : string) (self : Searcher)
    : outcome Searcher :=
  if decide (search_type = "area") then Returns (_resolve_area search_id self)
  else if decide (search_type = "device") then Returns (_resolve_device search_id self)
  else if decide (search_type = "entity") then Returns (_resolve_entity search_id self)
  else if decide (search_type = "automation") then Returns (_resolve_automation search_id self)
  else if decide (search_type = "script") then Returns (_resolve_script search_id self)
  else if decide (search_type = "group") then Returns (_resolve_group search_id self)
  else if decide (search_type = "scene") then Returns (_resolve_scene search_id self)
  else if decide (search_type = "config_entry") then Returns (_resolve_config_entry search_id self)
  else Raises AttributeError.

(** ** The drain loop

    [self._to_resolve.pop()] removes and returns an arbitrary element of
    the set.  Every possible order is covered by the relation [drains]
    below; the executable loop [drain] takes the choice as a function
    [choose] of the pending set (a choice outside the set falls back on
    the first element of the set's enumeration). *)

(** The state after [self._to_resolve.pop()] returned [n]. *)
Definition popped (n : node) (self : Searcher) : Searcher :=
  {| results := results self; _to_resolve := _to_resolve self ∖ {[n]} |}.

(** One iteration of the [while] loop that does not raise: some pending
    pair is popped and its [_resolve_*] method runs. *)
Definition iteration (self self' : Searcher) : Prop :=
  ∃ n, n ∈ _to_resolve self ∧ resolve n.1 n.2 (popped n self) = Returns self'.

(** [while self._to_resolve: ...], for every order of popping. *)
Inductive drains : Searcher → outcome Searcher → Prop :=
  | drains_exit self :
      _to_resolve self = ∅ →
      drains self (Returns self)
  | drains_raise self n e :
      n ∈ _to_resolve self →
      resolve n.1 n.2 (popped n self) = Raises e →
      drains self (Raises e)
  | drains_iter self n self' o :
      n ∈ _to_resolve self →
      resolve n.1 n.2 (popped n self) = Returns self' →
      drains self' o →
      drains self o.

Definition set_pop (choose : gset node → node) (s : gset node) : option node :=
  match elements s with
  | [] => None
  | first :: _ => Some (if decide (choose s ∈ s) then choose s else first)
  end.

(** The same loop as a function; [None] when [fuel] iterations were not
    enough to empty the set. *)
Fixpoint drain (choose : gset node → node) (fuel : nat) (self : Searcher)
    : option (outcome Searcher) :=
  match set_pop choose (_to_resolve self) with
  | None => Some (Returns self)
  | Some n =>
      match fuel with
      | 0 => None
      | S fuel =>
          match resolve n.1 n.2 (popped n self) with
          | Raises e => Some (Raises e)
          | Returns self' => drain choose fuel self'
          end
      end
  end.

(** ** [Searcher.async_search] *)

(** The first two statements: the entry is put in its bucket and in the
    pending set directly, without [_add_or_resolve]. *)
Definition seed (item_type item_id : string) (self : Searcher) : Searcher :=
  {| results :=
       <[item_type := {[item_id]} ∪ getitem (results self) item_type]> (results self);
     _to_resolve := {[(item_type, item_id)]} ∪ _to_resolve self |}.

(** [self.results["entity"] -= self.results[key]] *)
Definition subtract_from_entity (key : string) (r : gmap string (gset string))
    : gmap string (gset string) :=
  <["entity" := getitem r "entity" ∖ getitem r key]> r.

(** The statements after the loop: the four subtractions, the removal of
    the entry ([set.remove] raises [KeyError] when the element is absent)
    and the dict comprehension that keeps the non-empty buckets. *)
Definition finish (item_type item_id : string) (self : Searcher)
    : outcome (gmap string (gset string)) :=
  let r := results self in
  let r := subtract_from_entity "script" r in
  let r := subtract_from_entity "scene" r in
  let r := subtract_from_entity "automation" r in
  let r := subtract_from_entity "group" r in
  if decide (item_id ∈ getitem r item_type)
  then
    let r := <[item_type := getitem r item_type ∖ {[item_id]}]> r in
    Returns (filter (λ kv : string * gset string, kv.2 ≠ ∅) r)
  else Raises KeyError.

Definition after_loop (item_type item_id : string) (o : outcome Searcher)
    : outcome (gmap string (gset string)) :=
  match o with
  | Returns self => finish item_type item_id self
  | Raises e => Raises e
  end.

(** [async_search] as a function. *)
Definition async_search (choose : gset node → node) (fuel : nat)
    (item_type item_id : string) (self : Searcher)
    : option (outcome (gmap string (gset string))) :=
  after_loop item_type item_id <$> drain choose fuel (seed item_type item_id self).

(** [async_search] on a fresh [Searcher], for every order of popping. *)
Definition searches (item_type item_id : string)
    (o : outcome (gmap string (gset string))) : Prop :=
  ∃ d, drains (seed item_type item_id new_Searcher) d
       ∧ o = after_loop item_type item_id d.

End WithEnv.

(** ** Derived notions used in the statements *)

(** [n] is in the result set: its id is in the bucket of its kind. *)
Definition recorded (self : Searcher) (n : node) : Prop :=
  n.2 ∈ getitem (results self) n.1.

Global Instance recorded_dec self n : Decision (recorded self n).
Proof. unfold recorded. apply _. Defined.

Global Typeclasses Opaque recorded.

(** The kinds accepted by the websocket command ([vol.In] in the schema);
    they are the kinds that have a [_resolve_*] method. *)
Definition item_types : list string :=
  ["area"; "automation"; "config_entry"; "device"; "entity"; "group";
   "scene"; "script"].

(** The kinds that also exist as entities: the tuple tested in
    [_resolve_entity], the four buckets subtracted in [async_search]. *)
Definition entity_domains : list string :=
  ["scene"; "automation"; "script"; "group"].

(** A sequence of [_add_or_resolve] calls. *)
Definition adds (calls : list node) (self : Searcher) : Searcher :=
  foldl (λ self n, _add_or_resolve n.1 n.2 self) self calls.

(** The arguments of the [_add_or_resolve] calls made by each
    [_resolve_*] method, in order. *)
Definition calls_device (env : Env) (device_id : string) : list node :=
  match device_reg_async_get env device_id with
  | Some device_entry =>
      (if truthy (DeviceEntry.area_id device_entry)
       then [("area", default "" (DeviceEntry.area_id device_entry))]
       else [])
      ++ fmap (λ c, ("config_entry", c)) (DeviceEntry.config_entries device_entry)
  | None => []
  end
  ++ fmap (λ e, ("entity", EntityEntry.entity_id e)) (async_entries_for_device env device_id).

Definition calls_entity (env : Env) (entity_id : string) : list node :=
  fmap (λ e, ("entity", e)) (scenes_with_entity env entity_id)
  ++ fmap (λ e, ("entity", e)) (groups_with_entity env entity_id)
  ++ match entity_reg_async_get env entity_id with
     | Some entity_entry =>
         (if truthy (EntityEntry.device_id entity_entry)
          then [("device", default "" (EntityEntry.device_id entity_entry))]
          else [])
         ++ match EntityEntry.config_entry_id entity_entry with
            | Some c => [("config_entry", c)]
            | None => []
            end
     | None => []
     end
  ++ (if decide ((split_entity_id env entity_id).1 ∈ entity_domains)
      then [((split_entity_id env entity_id).1, entity_id)]
      else []).

Definition calls (env : Env) (search_type search_id : string) : list node :=
  if decide (search_type = "area")
  then fmap (λ d, ("device", DeviceEntry.id d)) (async_entries_for_area env search_id)
  else if decide (search_type = "device") then calls_device env search_id
  else if decide (search_type = "entity") then calls_entity env search_id
  else if decide (search_type = "group")
  then fmap (λ e, ("entity", e)) (get_entity_ids env search_id)
  else if decide (search_type = "scene")
  then fmap (λ e, ("entity", e)) (entities_in_scene env search_id)
  else if decide (search_type = "config_entry")
  then fmap (λ d, ("device", DeviceEntry.id d)) (device_entries_for_config_entry env search_id)
       ++ fmap (λ e, ("entity", EntityEntry.entity_id e))
              (entity_entries_for_config_entry env search_id)
  else [].

(** The nodes whose [_resolve_*] method runs in a search entered at
    [entry]: the entry itself and the nodes of the kinds outside
    [DONT_RESOLVE]. *)
Definition expands (entry n : node) : Prop :=
  n = entry ∨ n.1 ∉ DONT_RESOLVE.

(** The nodes a search entered at [entry] finds. *)
Inductive found (env : Env) (entry : node) : node → Prop :=
  | found_entry : found env entry entry
  | found_call n m :
      found env entry n →
      expands entry n →
      m ∈ calls env n.1 n.2 →
      found env entry m.

(** A finite object graph: a finite set of nodes that holds, with each of
    its nodes, the nodes that node's method passes to [_add_or_resolve]. *)
Definition closed (env : Env) (U : gset node) : Prop :=
  set_Forall (λ n, Forall (λ m, m ∈ U) (calls env n.1 n.2)) U.

Global Instance closed_dec env U : Decision (closed env U).
Proof. unfold closed. apply _. Defined.

Global Typeclasses Opaque closed.

(** The nodes of [U] whose method has not run yet. *)
Definition unvisited (U : gset node) (self : Searcher) : gset node :=
  filter (λ n, ¬ recorded self n ∨ n ∈ _to_resolve self) U.

(** The drain loop after any number of iterations, from the seeded state of
    a fresh searcher. *)
Definition in_loop (env : Env) (item_type item_id : string) (self : Searcher) : Prop :=
  rtc (iteration env) (seed item_type item_id new_Searcher) self.

(** The same collaborators with another content of the scenes. *)
Definition with_entities_in_scene (f : string → list string) (env : Env) : Env :=
  {| async_entries_for_area := async_entries_for_area env;
     device_reg_async_get := device_reg_async_get env;
     async_entries_for_device := async_entries_for_device env;
     entity_reg_async_get := entity_reg_async_get env;
     scenes_with_entity := scenes_with_entity env;
     groups_with_entity := groups_with_entity env;
     get_entity_ids := get_entity_ids env;
     entities_in_scene := f;
     device_entries_for_config_entry := device_entries_for_config_entry env;
     entity_entries_for_config_entry := entity_entries_for_config_entry env;
     split_entity_id := split_entity_id env |}.

(** The bucket of [key] after the four subtractions of [async_search]. *)
Definition cleaned (r : gmap string (gset string)) (key : string) : gset string :=
  if decide (key = "entity")
  then getitem r "entity" ∖ getitem r "script" ∖ getitem r "scene"
       ∖ getitem r "automation" ∖ getitem r "group"
  else getitem r key.

(** The bucket of [key] after the entry was removed as well. *)
Definition returned_bucket (item_type item_id : string)
    (r : gmap string (gset string)) (key : string) : gset string :=
  if decide (key = item_type) then cleaned r key ∖ {[item_id]} else cleaned r key.

(** What holds of the searcher between two iterations of the loop of a
    search entered at [entry]. *)
Record search_inv (env : Env) (entry : node) (self : Searcher) : Prop := {
  inv_entry : recorded self entry;
  inv_pending_recorded : ∀ n, n ∈ _to_resolve self → recorded self n;
  inv_pending_expands : ∀ n, n ∈ _to_resolve self → expands entry n;
  inv_pending_kind : ∀ n, n ∈ _to_resolve self → n = entry ∨ n.1 ∈ item_types;
  inv_found : ∀ n, recorded self n → found env entry n;
  inv_resolved :
    ∀ n, recorded self n → n ∉ _to_resolve self → expands entry n →
         ∀ m, m ∈ calls env n.1 n.2 → recorded self m
}.

(** Decide a closed proposition by evaluation. *)
Ltac by_evaluation := apply (bool_decide_unpack _); vm_compute; exact I.

(** Decide the comparisons of a concrete kind name with the literals. *)
Ltac kind_decide :=
  repeat match goal with
         | |- context [decide (?a = ?b)] =>
             first [ rewrite (decide_True (P:=a = b)) by done
                   | rewrite (decide_False (P:=a = b)) by done ]
         end.

(** [j] is in the bucket of [key] of a returned mapping; the mapping is a
    plain dict, the key has to be there. *)
Definition related (m : gmap string (gset string)) (key j : string) : Prop :=
  match m !! key with
  | Some X => j ∈ X
  | None => False
  end.

Global Instance related_dec m key j : Decision (related m key j).
Proof. unfold related. destruct (m !! key); apply _. Defined.

Global Typeclasses Opaque related.

(** Two sets of collaborators that answer alike the queries made by
    [_resolve_device] and [_resolve_entity]. *)
Record same_device_entity_queries (env env' : Env) : Prop := {
  same_device_reg_async_get :
    ∀ i, device_reg_async_get env' i = device_reg_async_get env i;
  same_async_entries_for_device :
    ∀ i, async_entries_for_device env' i = async_entries_for_device env i;
  same_entity_reg_async_get :
    ∀ i, entity_reg_async_get env' i = entity_reg_async_get env i;
  same_scenes_with_entity :
    ∀ i, scenes_with_entity env' i = scenes_with_entity env i;
  same_groups_with_entity :
    ∀ i, groups_with_entity env' i = groups_with_entity env i;
  same_split_entity_id :
    ∀ i, split_entity_id env' i = split_entity_id env i
}.

Global Instance exn_eq_dec : EqDecision exn.
Proof. solve_decision. Defined.

Global Instance outcome_eq_dec {A : Type} `{EqDecision A} : EqDecision (outcome A).
Proof. solve_decision. Defined.

Global Instance DeviceEntry_eq_dec : EqDecision DeviceEntry.t.
Proof. solve_decision. Defined.

Global Instance EntityEntry_eq_dec : EqDecision EntityEntry.t.
Proof. solve_decision. Defined.

(** ** A concrete installation, for the examples *)

Module Example.

(** The text before and after the first dot of an entity id. *)
Fixpoint before_dot (s : string) : string :=
  match s with
  | EmptyString => EmptyString
  | String c s' => if Ascii.eqb c "."%char then EmptyString else String c (before_dot s')
  end.

Fixpoint after_dot (s : string) : string :=
  match s with
  | EmptyString => EmptyString
  | String c s' => if Ascii.eqb c "."%char then s' else after_dot s'
  end.

Definition split_at_dot (s : string) : string * string :=
  (before_dot s, after_dot s).

Definition rows {A : Type} (table : list (string * list A)) (key : string) : list A :=
  match list_find (λ row, row.1 = key) table with
  | Some (_, row) => row.2
  | None => []
  end.

Definition hue : DeviceEntry.t :=
  DeviceEntry.Build "hue" (Some "living_room") ["cfg_hue"].

Definition light_sofa : EntityEntry.t :=
  EntityEntry.Build "light.sofa" (Some "hue") (Some "cfg_hue").

Definition light_tv : EntityEntry.t :=
  EntityEntry.Build "light.tv" (Some "hue") (Some "cfg_hue").

(** One device with two lights in one area; a scene that holds both
    lights and a group; the group holds one of the lights; a second scene
    that holds one of the lights and a light no registry knows. *)
Definition home : Env :=
  {| async_entries_for_area := rows [("living_room", [hue])];
     device_reg_async_get := λ i, head (rows [("hue", [hue])] i);
     async_entries_for_device := rows [("hue", [light_sofa; light_tv])];
     entity_reg_async_get :=
       λ i, head (rows [("light.sofa", [light_sofa]); ("light.tv", [light_tv])] i);
     scenes_with_entity :=
       rows [("light.sofa", ["scene.movie"; "scene.night"]);
             ("light.tv", ["scene.movie"]);
             ("group.lamps", ["scene.movie"]);
             ("light.porch", ["scene.night"])];
     groups_with_entity := rows [("light.sofa", ["group.lamps"])];
     get_entity_ids := rows [("group.lamps", ["light.sofa"])];
     entities_in_scene :=
       rows [("scene.movie", ["light.sofa"; "light.tv"; "group.lamps"]);
             ("scene.night", ["light.sofa"; "light.porch"])];
     device_entries_for_config_entry := rows [("cfg_hue", [hue])];
     entity_entries_for_config_entry := rows [("cfg_hue", [light_sofa; light_tv])];
     split_entity_id := split_at_dot |}.

(** Registries and helpers that know nothing. *)
Definition nothing : Env :=
  {| async_entries_for_area := λ _, [];
     device_reg_async_get := λ _, None;
     async_entries_for_device := λ _, [];
     entity_reg_async_get := λ _, None;
     scenes_with_entity := λ _, [];
     groups_with_entity := λ _, [];
     get_entity_ids := λ _, [];
     entities_in_scene := λ _, [];
     device_entries_for_config_entry := λ _, [];
     entity_entries_for_config_entry := λ _, [];
     split_entity_id := split_at_dot |}.

(** All the nodes of [home]. *)
Definition home_nodes : gset node :=
  {[ ("area", "living_room"); ("device", "hue"); ("config_entry", "cfg_hue");
     ("entity", "light.sofa"); ("entity", "light.tv"); ("entity", "light.porch");
     ("entity", "scene.movie"); ("entity", "scene.night");
     ("entity", "group.lamps");
     ("scene", "scene.movie"); ("scene", "scene.night");
     ("group", "group.lamps") ]}.

(** The nodes of a script entity that no registry knows. *)
Definition script_nodes (script : string) : gset node :=
  {[ ("entity", script); ("script", script) ]}.

(** What is related to the sofa light, to the movie scene and to the
    device. *)
Definition sofa_related : gmap string (gset string) :=
  {[ "scene" := {[ "scene.movie"; "scene.night" ]};
     "group" := {[ "group.lamps" ]};
     "device" := {[ "hue" ]};
     "area" := {[ "living_room" ]};
     "config_entry" := {[ "cfg_hue" ]};
     "entity" := {[ "light.tv" ]} ]}.

Definition movie_related : gmap string (gset string) :=
  {[ "scene" := {[ "scene.night" ]};
     "group" := {[ "group.lamps" ]};
     "device" := {[ "hue" ]};
     "area" := {[ "living_room" ]};
     "config_entry" := {[ "cfg_hue" ]};
     "entity" := {[ "light.sofa"; "light.tv" ]} ]}.

(** A pop order: the first element of the enumeration of the set. *)
Definition first_pending (s : gset node) : node :=
  default ("", "") (head (elements s)).

(** Another one: the last element. *)
Definition last_pending (s : gset node) : node :=
  default ("", "") (last (elements s)).

(** The collaborators of [home] when the areas, config entries, groups
    and scenes are asked for nothing. *)
Definition home_without_contents : Env :=
  {| async_entries_for_area := λ _, [];
     device_reg_async_get := device_reg_async_get home;
     async_entries_for_device := async_entries_for_device home;
     entity_reg_async_get := entity_reg_async_get home;
     scenes_with_entity := scenes_with_entity home;
     groups_with_entity := groups_with_entity home;
     get_entity_ids := λ _, [];
     entities_in_scene := λ _, [];
     device_entries_for_config_entry := λ _, [];
     entity_entries_for_config_entry := λ _, [];
     split_entity_id := split_entity_id home |}.

Definition light_shed : EntityEntry.t :=
  EntityEntry.Build "light.shed" (Some "gone") None.

(** An entity registry that still holds an entity of a device the device
    registry no longer has. *)
Definition orphans : Env :=
  {| async_entries_for_area := λ _, [];
     device_reg_async_get := λ _, None;
     async_entries_for_device := rows [("gone", [light_shed])];
     entity_reg_async_get := λ i, head (rows [("light.shed", [light_shed])] i);
     scenes_with_entity := λ _, [];
     groups_with_entity := λ _, [];
     get_entity_ids := λ _, [];
     entities_in_scene := λ _, [];
     device_entries_for_config_entry := λ _, [];
     entity_entries_for_config_entry := λ _, [];
     split_entity_id := split_at_dot |}.

Definition orphans_nodes : gset node :=
  {[ ("device", "gone"); ("entity", "light.shed") ]}.

End Example.

(** * Properties *)

(** ** Buckets *)

Lemma getitem_empty key : getitem ∅ key = ∅.
Proof. unfold getitem. by rewrite lookup_empty. Qed.

Lemma getitem_insert r k k' X :
  getitem (<[k:=X]> r) k' = if decide (k = k') then X else getitem r k'.
Proof.
  unfold getitem. case_decide as Hk.
  - subst. by rewrite lookup_insert_eq.
  - by rewrite lookup_insert_ne.
Qed.

Lemma getitem_insert_eq r k X : getitem (<[k:=X]> r) k = X.
Proof. rewrite getitem_insert. by rewrite decide_True. Qed.

Lemma getitem_insert_ne r k k' X : k ≠ k' → getitem (<[k:=X]> r) k' = getitem r k'.
Proof. intros. rewrite getitem_insert. by rewrite decide_False. Qed.

(** The comprehension at the end of [async_search], bucket by bucket. *)
Lemma lookup_nonempty_buckets (r : gmap string (gset string)) key :
  filter (λ kv : string * gset string, kv.2 ≠ ∅) r !! key
  = if decide (getitem r key = ∅) then None else Some (getitem r key).
Proof.
  unfold getitem. destruct (r !! key) as [X|] eqn:Hr; simpl.
  - case_decide as HX.
    + apply map_lookup_filter_None. right. intros Y HY. simpl.
      rewrite Hr in HY. injection HY as <-. auto.
    + apply map_lookup_filter_Some. auto.
  - rewrite decide_True by done. apply map_lookup_filter_None. by left.
Qed.

(** ** [_add_or_resolve] *)

Lemma add_recorded t i self n :
  recorded (_add_or_resolve t i self) n ↔ recorded self n ∨ n = (t, i).
Proof.
  destruct n as [k j]. unfold recorded, _add_or_resolve. simpl.
  destruct (decide (i ∈ getitem (results self) t)) as [Hin|Hin].
  - split; [auto|]. intros [?|[= -> ->]]; done.
  - assert (j ∈ getitem (<[t:={[i]} ∪ getitem (results self) t]> (results self)) k
            ↔ j ∈ getitem (results self) k ∨ (k, j) = (t, i)) as Hiff.
    { rewrite getitem_insert. case_decide as Hk.
      - subst k. rewrite elem_of_union, elem_of_singleton.
        split; [intros [->|?]; auto|intros [?|[= ->]]; auto].
      - split; [auto|]. intros [?|[= -> ->]]; done. }
    by destruct (decide (t ∈ DONT_RESOLVE)).
Qed.

Lemma add_pending t i self n :
  n ∈ _to_resolve (_add_or_resolve t i self)
  ↔ n ∈ _to_resolve self ∨ (n = (t, i) ∧ ¬ recorded self n ∧ t ∉ DONT_RESOLVE).
Proof.
  unfold _add_or_resolve.
  destruct (decide (i ∈ getitem (results self) t)) as [Hin|Hin].
  - split; [auto|]. intros [?|(-> & Hn & _)]; [done|]. by destruct Hn.
  - destruct (decide (t ∈ DONT_RESOLVE)) as [Ht|Ht]; simpl.
    + split; [auto|]. intros [?|(_ & _ & ?)]; done.
    + rewrite elem_of_union, elem_of_singleton.
      split; [intros [->|?]; auto|intros [?|(-> & _ & _)]; auto].
Qed.

Lemma adds_cons a l self : adds (a :: l) self = adds l (_add_or_resolve a.1 a.2 self).
Proof. done. Qed.

Lemma adds_app l1 l2 self : adds (l1 ++ l2) self = adds l2 (adds l1 self).
Proof. unfold adds. apply foldl_app. Qed.

Lemma adds_map {A : Type} (kind : string) (f : A → string) (l : list A) self :
  foldl (λ self x, _add_or_resolve kind (f x) self) self l
  = adds (fmap (λ x, (kind, f x)) l) self.
Proof. revert self. induction l as [|x l IH]; intros self; simpl; [done|]. apply IH. Qed.

Lemma adds_recorded l self n :
  recorded (adds l self) n ↔ recorded self n ∨ n ∈ l.
Proof.
  revert self. induction l as [|a l IH]; intros self.
  - simpl. rewrite elem_of_nil. tauto.
  - rewrite adds_cons, IH, add_recorded, elem_of_cons.
    destruct a as [t i]. simpl. tauto.
Qed.

Lemma adds_pending l self n :
  n ∈ _to_resolve (adds l self)
  ↔ n ∈ _to_resolve self ∨ (n ∈ l ∧ ¬ recorded self n ∧ n.1 ∉ DONT_RESOLVE).
Proof.
  revert self. induction l as [|a l IH]; intros self.
  - simpl. rewrite elem_of_nil. tauto.
  - rewrite adds_cons, IH, add_pending, add_recorded, elem_of_cons.
    destruct a as [t i]. simpl.
    destruct (decide (n = (t, i))) as [->|Hne]; simpl; tauto.
Qed.

(** ** The [_resolve_*] methods are their calls *)

Lemma resolve_device_calls env device_id self :
  _resolve_device env device_id self = adds (calls_device env device_id) self.
Proof.
  unfold _resolve_device, calls_device.
  rewrite adds_app, adds_map. f_equal.
  destruct (device_reg_async_get env device_id) as [d|]; [|done].
  rewrite adds_app, adds_map. f_equal.
  by destruct (truthy (DeviceEntry.area_id d)).
Qed.

Lemma resolve_entity_calls env entity_id self :
  _resolve_entity env entity_id self = adds (calls_entity env entity_id) self.
Proof.
  unfold _resolve_entity, calls_entity, entity_domains.
  rewrite !adds_app, !adds_map.
  assert (∀ s,
    match entity_reg_async_get env entity_id with
    | Some entity_entry =>
        let self :=
          if truthy (EntityEntry.device_id entity_entry)
          then _add_or_resolve "device"
                 (default "" (EntityEntry.device_id entity_entry)) s
          else s in
        match EntityEntry.config_entry_id entity_entry with
        | Some config_entry_id => _add_or_resolve "config_entry" config_entry_id self
        | None => self
        end
    | None => s
    end
    = adds
        match entity_reg_async_get env entity_id with
        | Some entity_entry =>
            (if truthy (EntityEntry.device_id entity_entry)
             then [("device", default "" (EntityEntry.device_id entity_entry))]
             else [])
            ++ match EntityEntry.config_entry_id entity_entry with
               | Some c => [("config_entry", c)]
               | None => []
               end
        | None => []
        end s) as Hreg.
  { intros s. destruct (entity_reg_async_get env entity_id) as [e|]; [|done].
    by destruct (truthy (EntityEntry.device_id e)), (EntityEntry.config_entry_id e). }
  rewrite Hreg. by case_decide.
Qed.

Lemma resolve_calls env search_type search_id self :
  resolve env search_type search_id self
  = if decide (search_type ∈ item_types)
    then Returns (adds (calls env search_type search_id) self)
    else Raises AttributeError.
Proof.
  case_decide as Hk.
  - unfold item_types in Hk.
    repeat (apply elem_of_cons in Hk as [->|Hk]); [..|by apply elem_of_nil in Hk];
      unfold resolve, calls; kind_decide; f_equal.
    + unfold _resolve_area. apply adds_map.
    + unfold _resolve_config_entry. by rewrite adds_app, !adds_map.
    + apply resolve_device_calls.
    + apply resolve_entity_calls.
    + unfold _resolve_group. apply adds_map.
    + unfold _resolve_scene. apply adds_map.
  - unfold resolve. unfold item_types in Hk.
    repeat (case_decide; [subst; exfalso; apply Hk; set_solver|]). done.
Qed.

(** ** What the methods pass to [_add_or_resolve] *)

Lemma entity_domains_item_types d : d ∈ entity_domains → d ∈ item_types.
Proof.
  unfold entity_domains. intros Hd.
  repeat (apply elem_of_cons in Hd as [->|Hd]); [..|by apply elem_of_nil in Hd];
    by_evaluation.
Qed.

Lemma calls_kind env t i m : m ∈ calls env t i → m.1 ∈ item_types.
Proof.
  revert m. apply Forall_forall.
  unfold calls, calls_device, calls_entity.
  repeat case_decide;
    repeat match goal with
           | |- context [match ?x with _ => _ end] => destruct x
           end;
    rewrite ?Forall_app, ?Forall_fmap, ?Forall_singleton;
    repeat split; try apply Forall_nil_2; try (apply Forall_true; intros ?);
    simpl; first [ by apply entity_domains_item_types | by_evaluation ].
Qed.

Lemma not_domain_area : "area" ∉ entity_domains.
Proof. by_evaluation. Qed.

Lemma not_domain_device : "device" ∉ entity_domains.
Proof. by_evaluation. Qed.

Lemma not_domain_entity : "entity" ∉ entity_domains.
Proof. by_evaluation. Qed.

Lemma not_domain_config_entry : "config_entry" ∉ entity_domains.
Proof. by_evaluation. Qed.

(** The only call that registers under one of the four entity domains is
    the last one of [_resolve_entity], on the entity's own id. *)
Lemma calls_domain env t i m :
  m ∈ calls env t i → m.1 ∈ entity_domains →
  t = "entity" ∧ m.2 = i ∧ (split_entity_id env i).1 = m.1.
Proof.
  enough (Forall (λ m, m.1 ∈ entity_domains →
                       t = "entity" ∧ m.2 = i ∧ (split_entity_id env i).1 = m.1)
                 (calls env t i)) as HF.
  { intros Hm. by apply (proj1 (Forall_forall _ _) HF). }
  unfold calls, calls_device, calls_entity.
  repeat case_decide;
    repeat match goal with
           | |- context [match ?x with _ => _ end] => destruct x
           end;
    rewrite ?Forall_app, ?Forall_fmap, ?Forall_singleton;
    repeat match goal with |- _ ∧ _ => split end;
    try apply Forall_nil_2; try (apply Forall_true; intros ?);
    simpl; try (intros Hd); try done;
    first [ by destruct (not_domain_area Hd)
          | by destruct (not_domain_device Hd)
          | by destruct (not_domain_entity Hd)
          | by destruct (not_domain_config_entry Hd) ].
Qed.

(** Of the kinds that have a method, only devices and entities are outside
    [DONT_RESOLVE]. *)
Lemma pending_kinds k :
  k ∈ item_types → k ∉ DONT_RESOLVE → k = "device" ∨ k = "entity".
Proof.
  unfold item_types. intros Hk Hd.
  repeat (apply elem_of_cons in Hk as [->|Hk]); [..|by apply elem_of_nil in Hk];
    auto; exfalso; apply Hd; by_evaluation.
Qed.

Lemma domains_dont_resolve d : d ∈ entity_domains → d ∈ DONT_RESOLVE.
Proof.
  unfold entity_domains. intros Hd.
  repeat (apply elem_of_cons in Hd as [->|Hd]); [..|by apply elem_of_nil in Hd];
    by_evaluation.
Qed.

(** ** The seed and the invariant of the loop *)

Lemma recorded_new n : ¬ recorded new_Searcher n.
Proof. unfold recorded. simpl. rewrite getitem_empty. set_solver. Qed.

Lemma seed_recorded t i self n :
  recorded (seed t i self) n ↔ recorded self n ∨ n = (t, i).
Proof.
  destruct n as [k j]. unfold recorded, seed. simpl.
  rewrite getitem_insert. case_decide as Hk.
  - subst k. rewrite elem_of_union, elem_of_singleton.
    split; [intros [->|?]; auto|intros [?|[= ->]]; auto].
  - split; [auto|]. intros [?|[= -> ->]]; done.
Qed.

Lemma seed_pending t i self n :
  n ∈ _to_resolve (seed t i self) ↔ n = (t, i) ∨ n ∈ _to_resolve self.
Proof. unfold seed. simpl. by rewrite elem_of_union, elem_of_singleton. Qed.

Lemma popped_pending n self m :
  m ∈ _to_resolve (popped n self) ↔ m ∈ _to_resolve self ∧ m ≠ n.
Proof. unfold popped. simpl. by rewrite elem_of_difference, elem_of_singleton. Qed.

Lemma inv_seed env t i : search_inv env (t, i) (seed t i new_Searcher).
Proof.
  split.
  - apply seed_recorded. by right.
  - intros n [->|Hn]%seed_pending; [|set_solver]. apply seed_recorded. by right.
  - intros n [->|Hn]%seed_pending; [|set_solver]. by left.
  - intros n [->|Hn]%seed_pending; [|set_solver]. by left.
  - intros n [Hn| ->]%seed_recorded; [by destruct (recorded_new n)|]. constructor.
  - intros n [Hn| ->]%seed_recorded Hw; [by destruct (recorded_new n)|].
    destruct Hw. apply seed_pending. by left.
Qed.

Lemma inv_iteration env entry self n :
  search_inv env entry self → n ∈ _to_resolve self →
  search_inv env entry (adds (calls env n.1 n.2) (popped n self)).
Proof.
  intros [He Hpr Hpe Hpk Hf Hres] Hn.
  assert (∀ x, recorded (popped n self) x ↔ recorded self x) as Hpop by done.
  split.
  - apply adds_recorded. left. by apply Hpop.
  - intros x [[Hx _]%popped_pending|(Hx & _)]%adds_pending; apply adds_recorded.
    + left. apply Hpop. auto.
    + by right.
  - intros x [[Hx _]%popped_pending|(_ & _ & Hx)]%adds_pending; [auto|by right].
  - intros x [[Hx _]%popped_pending|(Hx & _)]%adds_pending; [auto|].
    right. by eapply calls_kind.
  - intros x [Hx|Hx]%adds_recorded; [by apply Hf, Hpop|].
    apply (found_call env entry n x); auto.
  - intros x Hx Hw Hexp m Hm. apply adds_recorded.
    destruct (decide (x = n)) as [->|Hne]; [by right|]. left. apply Hpop.
    assert (x ∉ _to_resolve self) as Hw'.
    { intros Hin. apply Hw, adds_pending. left. by apply popped_pending. }
    destruct (decide (recorded self x)) as [Hr|Hr]; [by eapply Hres|].
    exfalso. apply adds_recorded in Hx as [Hx|Hx]; [by apply Hr, Hpop|].
    destruct Hexp as [->|Hk]; [done|].
    apply Hw, adds_pending. right. repeat split; auto.
Qed.

(** When the loop exits, the result set is exactly what the search finds,
    whatever the order of popping was. *)
Lemma drains_found env entry self self' :
  search_inv env entry self → drains env self (Returns self') →
  ∀ n, recorded self' n ↔ found env entry n.
Proof.
  intros Hinv Hd. remember (Returns self') as o eqn:Ho.
  induction Hd as [s Hw|s n e Hn Hr|s n s2 o Hn Hr Hd IH]; [|done|].
  - injection Ho as ->. destruct Hinv as [He Hpr Hpe Hpk Hf Hres].
    intros n. split; [apply Hf|]. induction 1 as [|x m Hx IHx Hexp Hm]; [done|].
    eapply Hres; eauto. rewrite Hw. set_solver.
  - apply IH; [|done]. rewrite resolve_calls in Hr.
    case_decide; [|done]. injection Hr as <-. by apply inv_iteration.
Qed.

(** ** The statements after the loop *)

Lemma subtracted_getitem r key :
  getitem (subtract_from_entity "group"
             (subtract_from_entity "automation"
                (subtract_from_entity "scene"
                   (subtract_from_entity "script" r)))) key
  = cleaned r key.
Proof.
  unfold subtract_from_entity, cleaned.
  destruct (decide (key = "entity")) as [->|Hk].
  - rewrite !getitem_insert. by kind_decide.
  - rewrite !getitem_insert.
    rewrite !(decide_False (P:="entity" = key)) by done. done.
Qed.

Lemma finish_raises t i self :
  i ∉ cleaned (results self) t → finish t i self = Raises KeyError.
Proof. intros Hi. unfold finish. rewrite subtracted_getitem. by rewrite decide_False. Qed.

Lemma finish_returns t i self :
  i ∈ cleaned (results self) t →
  ∃ m, finish t i self = Returns m
       ∧ ∀ key, m !! key
                = if decide (returned_bucket t i (results self) key = ∅) then None
                  else Some (returned_bucket t i (results self) key).
Proof.
  intros Hi. unfold finish. rewrite subtracted_getitem. rewrite decide_True by done.
  eexists. split; [done|]. intros key.
  rewrite lookup_nonempty_buckets, getitem_insert, subtracted_getitem.
  unfold returned_bucket.
  destruct (decide (t = key)) as [->|Hk].
  - by rewrite !(decide_True (P:=key = key)).
  - by rewrite !(decide_False (P:=key = t)).
Qed.

Lemma finish_inv t i self m :
  finish t i self = Returns m →
  i ∈ cleaned (results self) t
  ∧ ∀ key, m !! key
           = if decide (returned_bucket t i (results self) key = ∅) then None
             else Some (returned_bucket t i (results self) key).
Proof.
  intros Hm. destruct (decide (i ∈ cleaned (results self) t)) as [Hi|Hi].
  - split; [done|]. destruct (finish_returns t i self Hi) as (m' & Hm' & Hl).
    rewrite Hm in Hm'. by injection Hm' as ->.
  - by rewrite finish_raises in Hm.
Qed.

Lemma recorded_getitem self1 self2 :
  (∀ n, recorded self1 n ↔ recorded self2 n) →
  ∀ key, getitem (results self1) key = getitem (results self2) key.
Proof. intros H key. apply set_eq. intros j. apply (H (key, j)). Qed.

Lemma recorded_cleaned self1 self2 :
  (∀ n, recorded self1 n ↔ recorded self2 n) →
  ∀ key, cleaned (results self1) key = cleaned (results self2) key.
Proof.
  intros H key. unfold cleaned. by rewrite !(recorded_getitem self1 self2 H).
Qed.

(** What [async_search] returns or raises after the loop depends on the
    result set only. *)
Lemma finish_ext t i self1 self2 :
  (∀ n, recorded self1 n ↔ recorded self2 n) →
  finish t i self1 = finish t i self2.
Proof.
  intros H. pose proof (recorded_cleaned self1 self2 H) as Hc.
  destruct (decide (i ∈ cleaned (results self1) t)) as [Hi|Hi].
  - destruct (finish_returns t i self1 Hi) as (m1 & -> & H1).
    rewrite Hc in Hi. destruct (finish_returns t i self2 Hi) as (m2 & -> & H2).
    f_equal. apply map_eq. intros key. rewrite H1, H2.
    unfold returned_bucket. by rewrite !Hc.
  - rewrite (finish_raises t i self1 Hi). rewrite Hc in Hi.
    by rewrite (finish_raises t i self2 Hi).
Qed.

(** ** The loop as a function and as a relation *)

Lemma set_pop_None (choose : gset node → node) (s : gset node) : set_pop choose s = None ↔ s = ∅.
Proof.
  unfold set_pop. destruct (elements s) as [|x l] eqn:He.
  - split; [intros _|done]. by apply elements_empty_inv, leibniz_equiv in He.
  - split; [done|]. intros ->. by rewrite elements_empty in He.
Qed.

Lemma set_pop_Some (choose : gset node → node) (s : gset node) n : set_pop choose s = Some n → n ∈ s.
Proof.
  unfold set_pop. destruct (elements s) as [|x l] eqn:He; [done|].
  intros [= <-]. case_decide; [done|].
  apply elem_of_elements. rewrite He. left.
Qed.

Lemma drain_drains env choose fuel self o :
  drain env choose fuel self = Some o → drains env self o.
Proof.
  revert self. induction fuel as [|fuel IH]; intros self; simpl.
  - destruct (set_pop choose (_to_resolve self)) as [n|] eqn:Hp; [done|].
    intros [= <-]. by apply drains_exit, (set_pop_None choose).
  - destruct (set_pop choose (_to_resolve self)) as [n|] eqn:Hp.
    + apply set_pop_Some in Hp.
      destruct (resolve env n.1 n.2 (popped n self)) as [self'|e] eqn:Hr.
      * intros Hd. eapply drains_iter; eauto.
      * intros [= <-]. eapply drains_raise; eauto.
    + intros [= <-]. by apply drains_exit, (set_pop_None choose).
Qed.

(** A run of the function is one of the runs of the relation. *)
Lemma async_search_searches env choose fuel t i o :
  async_search env choose fuel t i new_Searcher = Some o → searches env t i o.
Proof.
  unfold async_search, searches.
  destruct (drain env choose fuel (seed t i new_Searcher)) as [d|] eqn:Hd; [|done].
  intros [= <-]. exists d. split; [|done]. by eapply drain_drains.
Qed.

(** With an entry kind that has a method, the loop never raises. *)
Lemma drains_valid env entry self o :
  search_inv env entry self → entry.1 ∈ item_types → drains env self o →
  ∃ self', o = Returns self'.
Proof.
  intros Hinv Hk Hd.
  induction Hd as [s Hw|s n e Hn Hr|s n s2 o Hn Hr Hd IH]; [by eexists| |].
  - exfalso. rewrite resolve_calls in Hr. rewrite decide_True in Hr; [done|].
    by destruct (inv_pending_kind _ _ _ Hinv n Hn) as [->|?].
  - apply IH. rewrite resolve_calls in Hr.
    case_decide; [|done]. injection Hr as <-. by apply inv_iteration.
Qed.

(** With any other entry kind, the first iteration raises. *)
Lemma drains_invalid env t i o :
  t ∉ item_types → drains env (seed t i new_Searcher) o → o = Raises AttributeError.
Proof.
  intros Hk Hd.
  assert (∀ n, n ∈ _to_resolve (seed t i new_Searcher) → n = (t, i)) as Hw.
  { intros n [->|Hn]%seed_pending; [done|set_solver]. }
  inversion Hd as [s He|s n e Hn Hr|s n s2 o' Hn Hr Hd']; subst.
  - exfalso. assert ((t, i) ∈ _to_resolve (seed t i new_Searcher)) as Hin
      by (apply seed_pending; by left).
    rewrite He in Hin. set_solver.
  - apply Hw in Hn as ->. rewrite resolve_calls in Hr. simpl in Hr.
    rewrite decide_False in Hr by done. by injection Hr as <-.
  - apply Hw in Hn as ->. rewrite resolve_calls in Hr. simpl in Hr.
    by rewrite decide_False in Hr.
Qed.

(** ** Termination *)

Lemma elem_of_unvisited U self n :
  n ∈ unvisited U self ↔ (¬ recorded self n ∨ n ∈ _to_resolve self) ∧ n ∈ U.
Proof. unfold unvisited. by rewrite elem_of_filter. Qed.

Lemma iteration_unvisited env U self n :
  closed env U →
  (∀ x, x ∈ _to_resolve self → recorded self x) →
  _to_resolve self ⊆ U →
  n ∈ _to_resolve self →
  let self' := adds (calls env n.1 n.2) (popped n self) in
  (∀ x, x ∈ _to_resolve self' → recorded self' x)
  ∧ _to_resolve self' ⊆ U
  ∧ (size (unvisited U self') < size (unvisited U self))%nat.
Proof.
  intros Hcl Hpr HU Hn self'.
  assert (∀ x, recorded (popped n self) x ↔ recorded self x) as Hpop by done.
  assert (∀ m, m ∈ calls env n.1 n.2 → m ∈ U) as Hcalls.
  { apply Forall_forall. apply (Hcl n). by apply HU. }
  split; [|split].
  - intros x [[Hx _]%popped_pending|(Hx & _)]%adds_pending; apply adds_recorded.
    + left. apply Hpop. auto.
    + by right.
  - intros x [[Hx _]%popped_pending|(Hx & _)]%adds_pending; auto.
  - apply subset_size. split.
    + intros x [Hx HxU]%elem_of_unvisited. apply elem_of_unvisited. split; [|done].
      destruct Hx as [Hx|Hx].
      * left. intros Hr. apply Hx, adds_recorded. left. by apply Hpop.
      * apply adds_pending in Hx as [[Hx _]%popped_pending|(_ & Hx & _)]; [by right|].
        left. intros Hr. by apply Hx, Hpop.
    + intros Hsub. assert (n ∈ unvisited U self') as Hin.
      { apply Hsub, elem_of_unvisited. split; [by right|by apply HU]. }
      apply elem_of_unvisited in Hin as [[Hx|Hx] _].
      * apply Hx, adds_recorded. left. apply Hpop. auto.
      * apply adds_pending in Hx as [[_ Hx]%popped_pending|(_ & Hx & _)]; [done|].
        apply Hx, Hpop. auto.
Qed.

Lemma drain_terminates env choose U fuel self :
  closed env U →
  (∀ x, x ∈ _to_resolve self → recorded self x) →
  _to_resolve self ⊆ U →
  (size (unvisited U self) ≤ fuel)%nat →
  is_Some (drain env choose fuel self).
Proof.
  intros Hcl. revert self. induction fuel as [|fuel IH]; intros self Hpr HU Hsz; simpl.
  - destruct (set_pop choose (_to_resolve self)) as [n|] eqn:Hp; [|by eexists].
    exfalso. apply set_pop_Some in Hp.
    assert (n ∈ unvisited U self) as Hin
      by (apply elem_of_unvisited; split; [by right|by apply HU]).
    assert (size (unvisited U self) = 0) as Hz%size_empty_inv by lia.
    rewrite Hz in Hin. set_solver.
  - destruct (set_pop choose (_to_resolve self)) as [n|] eqn:Hp; [|by eexists].
    apply set_pop_Some in Hp. rewrite resolve_calls.
    case_decide; [|by eexists].
    destruct (iteration_unvisited env U self n Hcl Hpr HU Hp) as (Hpr' & HU' & Hlt).
    apply IH; [done|done|lia].
Qed.

Lemma unvisited_size U self : (size (unvisited U self) ≤ size U)%nat.
Proof.
  apply subseteq_size. intros x [_ Hx]%elem_of_unvisited. done.
Qed.

Lemma async_search_terminates env choose U fuel t i :
  closed env U → (t, i) ∈ U → (size U ≤ fuel)%nat →
  is_Some (async_search env choose fuel t i new_Searcher).
Proof.
  intros Hcl Hin Hsz. unfold async_search.
  destruct (drain_terminates env choose U fuel (seed t i new_Searcher)) as [d ->];
    [done| | | |by eexists].
  - apply (inv_pending_recorded env (t, i)), inv_seed.
  - intros x [->|Hx]%seed_pending; [done|set_solver].
  - pose proof (unvisited_size U (seed t i new_Searcher)). lia.
Qed.

(** ** Iterations *)

Lemma iteration_adds env self self' :
  iteration env self self' →
  ∃ n, n ∈ _to_resolve self ∧ self' = adds (calls env n.1 n.2) (popped n self).
Proof.
  intros (n & Hn & Hr). exists n. split; [done|].
  rewrite resolve_calls in Hr. case_decide; [|done]. by injection Hr as <-.
Qed.

Lemma in_loop_inv env t i self :
  in_loop env t i self → search_inv env (t, i) self.
Proof.
  unfold in_loop. revert self. apply rtc_ind_r; [apply inv_seed|].
  intros s s' _ (n & Hn & ->)%iteration_adds Hinv. by apply inv_iteration.
Qed.

(** The result set only grows during the loop. *)
Lemma iterations_recorded env self self' n :
  rtc (iteration env) self self' → recorded self n → recorded self' n.
Proof.
  induction 1 as [|s1 s2 s3 (x & Hx & ->)%iteration_adds _ IH]; [done|].
  intros Hr. apply IH, adds_recorded. by left.
Qed.

(** A node that is in the result set and not pending stays so. *)
Lemma adds_visited l self n :
  recorded self n → n ∉ _to_resolve self →
  recorded (adds l self) n ∧ n ∉ _to_resolve (adds l self).
Proof.
  intros Hr Hw. split.
  - apply adds_recorded. by left.
  - intros [?|(_ & ? & _)]%adds_pending; done.
Qed.

Lemma iterations_visited env self self' n :
  rtc (iteration env) self self' →
  recorded self n → n ∉ _to_resolve self →
  recorded self' n ∧ n ∉ _to_resolve self'.
Proof.
  induction 1 as [|s1 s2 s3 (x & Hx & ->)%iteration_adds _ IH]; [done|].
  intros Hr Hw.
  destruct (adds_visited (calls env x.1 x.2) (popped x s1) n) as [Hr' Hw'];
    [done|by intros [? _]%popped_pending|]. by apply IH.
Qed.

(** The number of iterations is bounded by the nodes not visited yet. *)
Lemma iterations_bounded env U k self self' :
  closed env U →
  (∀ x, x ∈ _to_resolve self → recorded self x) →
  _to_resolve self ⊆ U →
  nsteps (iteration env) k self self' →
  (k + size (unvisited U self') ≤ size (unvisited U self))%nat.
Proof.
  intros Hcl Hpr HU Hk. revert Hpr HU.
  induction Hk as [|k s1 s2 s3 (x & Hx & ->)%iteration_adds _ IH]; intros Hpr HU;
    [simpl; lia|].
  destruct (iteration_unvisited env U s1 x Hcl Hpr HU Hx) as (Hpr' & HU' & Hlt).
  specialize (IH Hpr' HU'). simpl in *. lia.
Qed.

(** ** What a search returns *)

Lemma searches_returns env t i m :
  searches env t i (Returns m) →
  ∃ self, (∀ n, recorded self n ↔ found env (t, i) n)
          ∧ finish t i self = Returns m.
Proof.
  intros (d & Hd & Ho). destruct d as [self|e]; [|done].
  exists self. split; [|done]. eapply drains_found; [apply inv_seed|done].
Qed.

(** Every order of popping gives the same outcome. *)
Lemma searches_deterministic env t i o1 o2 :
  searches env t i o1 → searches env t i o2 → o1 = o2.
Proof.
  intros (d1 & Hd1 & ->) (d2 & Hd2 & ->).
  destruct (decide (t ∈ item_types)) as [Hk|Hk].
  - destruct (drains_valid env (t, i) _ _ (inv_seed env t i) Hk Hd1) as [s1 ->].
    destruct (drains_valid env (t, i) _ _ (inv_seed env t i) Hk Hd2) as [s2 ->].
    simpl. apply finish_ext. intros n.
    rewrite (drains_found env (t, i) _ s1 (inv_seed env t i) Hd1).
    by rewrite (drains_found env (t, i) _ s2 (inv_seed env t i) Hd2).
  - apply (drains_invalid env t i _ Hk) in Hd1 as ->.
    by apply (drains_invalid env t i _ Hk) in Hd2 as ->.
Qed.

(** The buckets of a returned mapping. *)
Lemma returned_lookup t i self m key X :
  finish t i self = Returns m → m !! key = Some X →
  X = returned_bucket t i (results self) key ∧ X ≠ ∅.
Proof.
  intros [_ Hm]%finish_inv. rewrite Hm. case_decide; [done|]. by intros [= <-].
Qed.

Lemma returned_elem t i self m key j :
  finish t i self = Returns m → j ∈ returned_bucket t i (results self) key →
  ∃ X, m !! key = Some X ∧ j ∈ X.
Proof.
  intros [_ Hm]%finish_inv Hj. eexists. split; [|done].
  rewrite Hm. rewrite decide_False; [done|]. set_solver.
Qed.

(** Only the entry and the entities of one of the four domains are found
    under these domains. *)
Lemma found_domain env entry n :
  found env entry n → n.1 ∈ entity_domains →
  n = entry ∨ (split_entity_id env n.2).1 = n.1.
Proof.
  induction 1 as [|x m Hx IH Hexp Hm]; [by left|].
  intros Hd. right. by destruct (calls_domain env x.1 x.2 m Hm Hd) as (_ & -> & ?).
Qed.

Lemma calls_entity_domain env entity_id :
  (split_entity_id env entity_id).1 ∈ entity_domains →
  ((split_entity_id env entity_id).1, entity_id) ∈ calls env "entity" entity_id.
Proof.
  intros Hd. unfold calls. kind_decide. unfold calls_entity.
  rewrite (decide_True (P:=_ ∈ entity_domains)) by done.
  rewrite !elem_of_app. do 3 right. left.
Qed.

(** An entry of kind entity whose id is in one of the four domains: the
    id is subtracted from the entity bucket before [remove] looks for it. *)
Lemma entity_domain_entry_raises env entity_id o :
  (split_entity_id env entity_id).1 ∈ entity_domains →
  searches env "entity" entity_id o → o = Raises KeyError.
Proof.
  intros Hd (d & Hdr & ->).
  destruct (drains_valid env ("entity", entity_id) _ _
              (inv_seed env "entity" entity_id) ltac:(by_evaluation) Hdr) as [s ->].
  simpl. apply finish_raises.
  pose proof (drains_found env _ _ s (inv_seed env "entity" entity_id) Hdr) as Hf.
  assert (recorded s ((split_entity_id env entity_id).1, entity_id)) as Hr.
  { apply Hf. eapply (found_call env _ ("entity", entity_id)); [constructor|by left|].
    by apply calls_entity_domain. }
  unfold recorded in Hr. simpl in Hr. unfold cleaned. rewrite decide_True by done.
  unfold entity_domains in Hd.
  repeat (apply elem_of_cons in Hd as [Heq|Hd]); [..|by apply elem_of_nil in Hd];
    rewrite Heq in Hr; rewrite !elem_of_difference; tauto.
Qed.

(** * The claims *)

(** ** Idempotent discovery *)

(** C9. [_add_or_resolve] is idempotent: when the id is already in the
    result bucket of its kind, the call changes neither the result set nor
    the pending set (the searcher is left as it was, so the pair is not
    enqueued again and no bucket changes). *)
Theorem add_or_resolve_idempotent item_type item_id self :
  item_id ∈ getitem (results self) item_type →
  _add_or_resolve item_type item_id self = self.
Proof. intros Hin. unfold _add_or_resolve. by rewrite decide_True. Qed.

Lemma add_or_resolve_idempotent_witness :
  "hue" ∈ getitem (results (seed "device" "hue" new_Searcher)) "device"
  ∧ _add_or_resolve "device" "hue" (seed "device" "hue" new_Searcher)
    = seed "device" "hue" new_Searcher.
Proof.
  split; [by_evaluation|]. apply add_or_resolve_idempotent. by_evaluation.
Defined.

(** A second call with the same arguments does nothing, whatever the
    searcher was before the first. *)
Lemma add_or_resolve_twice item_type item_id self :
  _add_or_resolve item_type item_id (_add_or_resolve item_type item_id self)
  = _add_or_resolve item_type item_id self.
Proof.
  unfold _add_or_resolve at 1. rewrite decide_True; [done|].
  apply (add_recorded item_type item_id self (item_type, item_id)). by right.
Qed.

(** ** The pending pairs are in the result set *)

(** C10. At every point of the drain loop of a search, every pending pair
    has its id in the result bucket of its kind; as the result set only
    grows, a pair that was pending at some point is in the result set at
    every later point, the exit of the loop included. *)
Theorem pending_recorded env item_type item_id self1 self2 n :
  in_loop env item_type item_id self1 →
  rtc (iteration env) self1 self2 →
  n ∈ _to_resolve self1 →
  recorded self2 n.
Proof.
  intros H1 H12 Hn. eapply iterations_recorded; [done|].
  by apply (inv_pending_recorded _ _ _ (in_loop_inv _ _ _ _ H1)).
Qed.

Lemma pending_recorded_witness :
  recorded (_resolve_device Example.home "hue"
              (popped ("device", "hue") (seed "device" "hue" new_Searcher)))
           ("entity", "light.tv").
Proof.
  apply (pending_recorded Example.home "device" "hue"
           (_resolve_device Example.home "hue"
              (popped ("device", "hue") (seed "device" "hue" new_Searcher)))).
  - apply rtc_once. exists ("device", "hue"). split; [by_evaluation|reflexivity].
  - apply rtc_refl.
  - by_evaluation.
Defined.

(** ** No self-inclusion *)

(** C5. The mapping returned by a search does not hold the entry id in the
    bucket of the entry kind. *)
Theorem entry_not_returned env item_type item_id m X :
  searches env item_type item_id (Returns m) →
  m !! item_type = Some X →
  item_id ∉ X.
Proof.
  intros (s & _ & Hf)%searches_returns Hm.
  destruct (returned_lookup _ _ _ _ _ _ Hf Hm) as [-> _].
  unfold returned_bucket. rewrite decide_True by done.
  rewrite elem_of_difference, elem_of_singleton. tauto.
Qed.

Lemma entry_not_returned_witness :
  "light.sofa" ∉ ({[ "light.tv" ]} : gset string).
Proof.
  apply (entry_not_returned Example.home "entity" "light.sofa" Example.sofa_related).
  - apply (async_search_searches _ Example.first_pending 12).
    vm_compute. reflexivity.
  - vm_compute. reflexivity.
Defined.

(** ** The entity bucket and the four specific buckets *)

(** C6. In the mapping returned by a search, the entity bucket is disjoint
    from the scene, script, automation and group buckets. *)
Theorem entity_bucket_disjoint env item_type item_id m key E X :
  searches env item_type item_id (Returns m) →
  key ∈ entity_domains →
  m !! "entity" = Some E →
  m !! key = Some X →
  E ## X.
Proof.
  intros (s & _ & Hf)%searches_returns Hk HE HX.
  destruct (returned_lookup _ _ _ _ _ _ Hf HE) as [-> _].
  destruct (returned_lookup _ _ _ _ _ _ Hf HX) as [-> _].
  assert (key ≠ "entity") as Hne by (intros ->; by apply not_domain_entity).
  assert (∀ j, j ∈ returned_bucket item_type item_id (results s) "entity" →
               j ∉ getitem (results s) key) as Hent.
  { intros j. unfold returned_bucket, cleaned. kind_decide.
    unfold entity_domains in Hk.
    repeat (apply elem_of_cons in Hk as [->|Hk]); [..|by apply elem_of_nil in Hk];
      case_decide; rewrite !elem_of_difference; tauto. }
  assert (∀ j, j ∈ returned_bucket item_type item_id (results s) key →
               j ∈ getitem (results s) key) as Hkey.
  { intros j. unfold returned_bucket, cleaned. rewrite (decide_False (P:=key = "entity")) by done.
    case_decide; rewrite ?elem_of_difference; tauto. }
  intros j Hj1 Hj2. by apply (Hent j Hj1), Hkey.
Qed.

Lemma entity_bucket_disjoint_witness :
  ({[ "light.tv" ]} : gset string) ## {[ "scene.movie"; "scene.night" ]}.
Proof.
  apply (entity_bucket_disjoint Example.home "entity" "light.sofa"
           Example.sofa_related "scene").
  - apply (async_search_searches _ Example.first_pending 12).
    vm_compute. reflexivity.
  - by_evaluation.
  - vm_compute. reflexivity.
  - vm_compute. reflexivity.
Defined.

(** ** The order of popping *)

(** C7. What a search returns does not depend on the order in which the
    pending pairs are popped: any two runs of [async_search] on the same
    collaborators and the same entry have the same outcome, hence the same
    returned mapping. *)
Theorem search_order_independent env item_type item_id o1 o2 :
  searches env item_type item_id o1 →
  searches env item_type item_id o2 →
  o1 = o2.
Proof. apply searches_deterministic. Qed.

Lemma search_order_independent_witness :
  async_search Example.home Example.last_pending 12 "entity" "light.sofa" new_Searcher
  = Some (Returns Example.sofa_related).
Proof.
  destruct (async_search_terminates Example.home Example.last_pending
              Example.home_nodes 12 "entity" "light.sofa") as [o Ho];
    [by_evaluation|by_evaluation|vm_compute; lia|].
  rewrite Ho. f_equal.
  apply (search_order_independent Example.home "entity" "light.sofa").
  - by apply (async_search_searches _ Example.last_pending 12).
  - apply (async_search_searches _ Example.first_pending 12).
    vm_compute. reflexivity.
Defined.

(** ** Termination *)

(** C4. On a finite object graph (a finite set of nodes closed under the
    calls of the methods, cycles allowed) a search terminates: the function
    gives an outcome for every pop order as soon as the fuel covers the
    nodes, no sequence of iterations is longer than the number of nodes,
    and a pair that was popped is never pending again, so that each pair is
    enqueued at most once. *)
Theorem search_terminates env U item_type item_id :
  closed env U →
  (item_type, item_id) ∈ U →
  (∀ choose fuel,
     (size U ≤ fuel)%nat →
     is_Some (async_search env choose fuel item_type item_id new_Searcher))
  ∧ (∀ k self,
       nsteps (iteration env) k (seed item_type item_id new_Searcher) self →
       (k ≤ size U)%nat)
  ∧ (∀ self1 n self2 self3,
       in_loop env item_type item_id self1 →
       n ∈ _to_resolve self1 →
       resolve env n.1 n.2 (popped n self1) = Returns self2 →
       rtc (iteration env) self2 self3 →
       n ∉ _to_resolve self3).
Proof.
  intros Hcl Hin. split; [|split].
  - intros choose fuel Hsz. by eapply async_search_terminates.
  - intros k self Hk.
    assert (_to_resolve (seed item_type item_id new_Searcher) ⊆ U) as HU.
    { intros x [->|Hx]%seed_pending; [done|]. by apply not_elem_of_empty in Hx. }
    pose proof (iterations_bounded env U k _ self Hcl
                  (inv_pending_recorded _ _ _ (inv_seed env item_type item_id))
                  HU Hk) as Hb.
    pose proof (unvisited_size U (seed item_type item_id new_Searcher)). lia.
  - intros s1 n s2 s3 Hl Hn Hr Hit.
    rewrite resolve_calls in Hr. case_decide; [|done]. injection Hr as <-.
    pose proof (inv_pending_recorded _ _ _ (in_loop_inv _ _ _ _ Hl) n Hn) as Hrec.
    destruct (adds_visited (calls env n.1 n.2) (popped n s1) n) as [Hr' Hw'];
      [done|by intros [_ ?]%popped_pending|].
    by destruct (iterations_visited env _ _ n Hit Hr' Hw').
Qed.

Lemma search_terminates_witness :
  is_Some (async_search Example.home Example.first_pending 12
             "area" "living_room" new_Searcher).
Proof.
  apply (search_terminates Example.home Example.home_nodes "area" "living_room");
    [by_evaluation|by_evaluation|vm_compute; lia].
Defined.

(** ** Entries that are entities of a specific domain *)

(** C2. An entry of kind entity whose id is the entity id of a script: the
    search does not return.  [_resolve_entity] registers the id in the
    script bucket, the subtractions take it out of the entity bucket, and
    [self.results["entity"].remove] then raises [KeyError], whatever the
    order of popping and the fuel. *)
Theorem script_entity_entry_raises (choose : gset node → node) (fuel : nat) :
  async_search Example.home choose (2 + fuel) "entity" "script.foo" new_Searcher
  = Some (Raises KeyError).
Proof.
  destruct (async_search_terminates Example.home choose
              (Example.script_nodes "script.foo") (2 + fuel) "entity" "script.foo")
    as [o Ho]; [by_evaluation|by_evaluation| |].
  - assert (size (Example.script_nodes "script.foo") = 2) as ->
      by (vm_compute; reflexivity). lia.
  - rewrite Ho. f_equal.
    eapply entity_domain_entry_raises; [|by eapply async_search_searches].
    by_evaluation.
Qed.

(** ** Entries that no registry knows *)

Lemma cleaned_getitem r key j : j ∈ cleaned r key → j ∈ getitem r key.
Proof. unfold cleaned. case_decide; [subst|done]. rewrite !elem_of_difference. tauto. Qed.

(** Where the entry is passed to no [_add_or_resolve] call at all, the
    search returns the empty mapping. *)
Lemma unresolved_entry_returns_empty env item_type item_id o :
  item_type ∈ item_types →
  calls env item_type item_id = [] →
  searches env item_type item_id o →
  o = Returns ∅.
Proof.
  intros Hk Hc (d & Hd & ->).
  destruct (drains_valid env (item_type, item_id) _ _
              (inv_seed env item_type item_id) Hk Hd) as [s ->].
  pose proof (drains_found env _ _ s (inv_seed env item_type item_id) Hd) as Hf.
  assert (∀ n, recorded s n ↔ n = (item_type, item_id)) as Hrec.
  { intros n. rewrite Hf. split; [|intros ->; constructor].
    induction 1 as [|x m Hx IH _ Hm]; [done|].
    rewrite IH in Hm. simpl in Hm. rewrite Hc in Hm. by apply elem_of_nil in Hm. }
  assert (item_id ∈ cleaned (results s) item_type) as Hin.
  { assert (item_id ∈ getitem (results s) item_type) as Hi
      by by apply (Hrec (item_type, item_id)).
    unfold cleaned. case_decide as He; [subst item_type|done].
    rewrite !elem_of_difference. repeat split; [done|..];
      intros Hj; by apply (Hrec (_, item_id)) in Hj. }
  simpl. destruct (finish_returns item_type item_id s Hin) as (m & -> & Hm).
  f_equal. apply map_eq. intros key. rewrite Hm, lookup_empty.
  rewrite decide_True; [done|]. apply set_eq. intros j.
  split; [|by intros ?%not_elem_of_empty]. unfold returned_bucket.
  case_decide as He.
  - subst key. rewrite elem_of_difference, elem_of_singleton.
    intros [Hj%cleaned_getitem Hne]. by apply (Hrec (_, j)) in Hj as [= ->].
  - intros Hj%cleaned_getitem. by apply (Hrec (_, j)) in Hj as [= -> ->].
Qed.

(** C8. An entry whose id no registry and no helper knows: every query
    for it returns nothing, and yet the search raises when the id is in one
    of the four entity domains, here the entity id of a deleted scene. *)
Theorem unknown_entity_entry_raises (choose : gset node → node) (fuel : nat) :
  async_search Example.nothing choose (2 + fuel) "entity" "scene.deleted" new_Searcher
  = Some (Raises KeyError).
Proof.
  destruct (async_search_terminates Example.nothing choose
              {[ ("entity", "scene.deleted"); ("scene", "scene.deleted") ]}
              (2 + fuel) "entity" "scene.deleted")
    as [o Ho]; [by_evaluation|by_evaluation| |].
  - assert (size ({[ ("entity", "scene.deleted"); ("scene", "scene.deleted") ]}
                    : gset node) = 2) as -> by (vm_compute; reflexivity). lia.
  - rewrite Ho. f_equal.
    eapply entity_domain_entry_raises; [|by eapply async_search_searches].
    by_evaluation.
Qed.

(** ** Scenes and groups found through their entity *)

Lemma scene_group_domains d : d ∈ ["scene"; "group"] → d ∈ entity_domains.
Proof.
  intros Hd.
  repeat (apply elem_of_cons in Hd as [->|Hd]); [..|by apply elem_of_nil in Hd];
    by_evaluation.
Qed.

(** The claim that [_resolve_entity] enqueues the scene it registers fails:
    in [home], the method run on the night scene registers it under scene
    and leaves the pending set without it; the search entered at the sofa
    light returns the night scene and nowhere the porch light, which only
    that scene holds. *)
Lemma scene_entity_enqueued_counterexample :
  (split_entity_id Example.home "scene.night").1 = "scene"
  ∧ recorded (_resolve_entity Example.home "scene.night" new_Searcher)
             ("scene", "scene.night")
  ∧ (("scene", "scene.night")
       ∉ _to_resolve (_resolve_entity Example.home "scene.night" new_Searcher))
  ∧ "light.porch" ∈ entities_in_scene Example.home "scene.night"
  ∧ async_search Example.home Example.first_pending 12 "entity" "light.sofa"
      new_Searcher = Some (Returns Example.sofa_related)
  ∧ "scene.night" ∈ getitem Example.sofa_related "scene"
  ∧ map_Forall (λ _ X, "light.porch" ∉ X) Example.sofa_related.
Proof.
  repeat split; try by_evaluation; vm_compute; reflexivity.
Qed.

(** C3, amended. When [_resolve_entity] processes an entity id of the scene
    or group domain, it registers the id in the scene or group bucket and
    does not enqueue it: the pair is pending afterwards only if it was
    before, and in a search a pair of these kinds is pending only when it
    is the entry, so its own method runs only then. *)
Theorem resolve_entity_registers_without_enqueueing env entity_id self :
  (split_entity_id env entity_id).1 ∈ ["scene"; "group"] →
  recorded (_resolve_entity env entity_id self)
           ((split_entity_id env entity_id).1, entity_id)
  ∧ (((split_entity_id env entity_id).1, entity_id)
       ∈ _to_resolve (_resolve_entity env entity_id self)
     ↔ ((split_entity_id env entity_id).1, entity_id) ∈ _to_resolve self)
  ∧ (∀ item_type item_id self',
       in_loop env item_type item_id self' →
       ((split_entity_id env entity_id).1, entity_id) ∈ _to_resolve self' →
       ((split_entity_id env entity_id).1, entity_id) = (item_type, item_id)).
Proof.
  intros Hd%scene_group_domains. rewrite resolve_entity_calls.
  pose proof (calls_entity_domain env entity_id Hd) as Hc.
  unfold calls in Hc. revert Hc. kind_decide. intros Hc.
  pose proof (domains_dont_resolve _ Hd) as Hdr.
  split; [|split].
  - apply adds_recorded. by right.
  - rewrite adds_pending. simpl. tauto.
  - intros t i s Hl Hn.
    by destruct (inv_pending_expands _ _ _ (in_loop_inv _ _ _ _ Hl) _ Hn).
Qed.

Lemma resolve_entity_registers_without_enqueueing_witness :
  recorded (_resolve_entity Example.home "scene.night" new_Searcher)
           ("scene", "scene.night")
  ∧ ("scene", "scene.night")
      ∉ _to_resolve (_resolve_entity Example.home "scene.night" new_Searcher).
Proof.
  destruct (resolve_entity_registers_without_enqueueing
              Example.home "scene.night" new_Searcher) as (Hr & Hw & _);
    [by_evaluation|].
  split; [exact Hr|]. intros Hn. apply Hw in Hn. by apply not_elem_of_empty in Hn.
Defined.

(** ** Scenes are expanded as entries only *)

Lemma calls_scene_entity env scene_id entity :
  entity ∈ entities_in_scene env scene_id →
  ("entity", entity) ∈ calls env "scene" scene_id.
Proof.
  intros He. unfold calls. kind_decide. apply list_elem_of_fmap. by exists entity.
Qed.

Lemma calls_entity_scene env entity_id scene_id :
  scene_id ∈ scenes_with_entity env entity_id →
  ("entity", scene_id) ∈ calls env "entity" entity_id.
Proof.
  intros Hs. unfold calls. kind_decide. unfold calls_entity.
  apply elem_of_app. left. apply list_elem_of_fmap. by exists scene_id.
Qed.

(** An id found under one of the four domains is the entry or an entity of
    that domain: a plain entity is in none of the four buckets. *)
Lemma plain_entity_cleaned env entry self entity :
  (∀ n, recorded self n ↔ found env entry n) →
  found env entry ("entity", entity) →
  (split_entity_id env entity).1 ∉ entity_domains →
  (∀ key, key ∈ entity_domains → (key, entity) ≠ entry) →
  entity ∈ cleaned (results self) "entity".
Proof.
  intros Hf He Hd Hentry.
  assert (∀ key, key ∈ entity_domains → entity ∉ getitem (results self) key) as Hno.
  { intros key Hk Hin. apply (Hf (key, entity)) in Hin.
    destruct (found_domain env entry _ Hin Hk) as [Heq|Heq].
    - by apply (Hentry key).
    - simpl in Heq. by rewrite Heq in Hd. }
  unfold cleaned. kind_decide. rewrite !elem_of_difference.
  repeat split; [by apply (Hf ("entity", entity))|..]; apply Hno; by_evaluation.
Qed.

(** A search entered at a scene returns the plain entities of the scene. *)
Lemma scene_entry_returns_entity env scene_id entity o :
  entity ∈ entities_in_scene env scene_id →
  entity ≠ scene_id →
  (split_entity_id env entity).1 ∉ entity_domains →
  searches env "scene" scene_id o →
  ∃ m X, o = Returns m ∧ m !! "entity" = Some X ∧ entity ∈ X.
Proof.
  intros He Hne Hd (d & Hdr & ->).
  destruct (drains_valid env ("scene", scene_id) _ _
              (inv_seed env "scene" scene_id) ltac:(by_evaluation) Hdr) as [s ->].
  pose proof (drains_found env _ _ s (inv_seed env "scene" scene_id) Hdr) as Hf.
  assert (found env ("scene", scene_id) ("entity", entity)) as Hfe.
  { eapply (found_call env _ ("scene", scene_id)); [constructor|by left|].
    by apply calls_scene_entity. }
  assert (scene_id ∈ cleaned (results s) "scene") as Hin.
  { unfold cleaned. kind_decide. apply (Hf ("scene", scene_id)). constructor. }
  simpl. destruct (finish_returns "scene" scene_id s Hin) as (m & Hm & Hl).
  destruct (returned_elem "scene" scene_id s m "entity" entity Hm) as (X & HX & HeX).
  { unfold returned_bucket. kind_decide.
    apply (plain_entity_cleaned env ("scene", scene_id)); try done.
    intros key _ [= _ ->]. done. }
  by exists m, X.
Qed.

(** A search entered at a plain entity returns the scenes that hold it. *)
Lemma entity_entry_returns_scene env entity_id scene_id o :
  scene_id ∈ scenes_with_entity env entity_id →
  (split_entity_id env scene_id).1 = "scene" →
  (split_entity_id env entity_id).1 ∉ entity_domains →
  searches env "entity" entity_id o →
  ∃ m X, o = Returns m ∧ m !! "scene" = Some X ∧ scene_id ∈ X.
Proof.
  intros Hs Hds Hd (d & Hdr & ->).
  destruct (drains_valid env ("entity", entity_id) _ _
              (inv_seed env "entity" entity_id) ltac:(by_evaluation) Hdr) as [s ->].
  pose proof (drains_found env _ _ s (inv_seed env "entity" entity_id) Hdr) as Hf.
  assert (found env ("entity", entity_id) ("scene", scene_id)) as Hfs.
  { eapply (found_call env _ ("entity", scene_id)).
    - eapply (found_call env _ ("entity", entity_id)); [constructor|by left|].
      by apply calls_entity_scene.
    - right. simpl. by_evaluation.
    - simpl. rewrite <- Hds. apply calls_entity_domain. rewrite Hds. by_evaluation. }
  assert (entity_id ∈ cleaned (results s) "entity") as Hin.
  { apply (plain_entity_cleaned env ("entity", entity_id)); try done; [constructor|].
    intros key Hk [= ->]. by apply not_domain_entity. }
  simpl. destruct (finish_returns "entity" entity_id s Hin) as (m & Hm & Hl).
  destruct (returned_elem "entity" entity_id s m "scene" scene_id Hm) as (X & HX & HsX).
  { unfold returned_bucket, cleaned. kind_decide. by apply (Hf ("scene", scene_id)). }
  by exists m, X.
Qed.

(** The methods of devices and entities do not read what scenes hold. *)
Lemma resolve_scene_independent f env search_type search_id self :
  search_type = "device" ∨ search_type = "entity" →
  resolve (with_entities_in_scene f env) search_type search_id self
  = resolve env search_type search_id self.
Proof. intros [->| ->]; unfold resolve; by kind_decide. Qed.

Lemma drain_scene_independent f env choose fuel self :
  (∀ n, n ∈ _to_resolve self → n.1 = "device" ∨ n.1 = "entity") →
  drain (with_entities_in_scene f env) choose fuel self = drain env choose fuel self.
Proof.
  revert self. induction fuel as [|fuel IH]; intros self Hw; simpl; [done|].
  destruct (set_pop choose (_to_resolve self)) as [n|] eqn:Hp; [|done].
  apply set_pop_Some in Hp. rewrite resolve_scene_independent by auto.
  destruct (resolve env n.1 n.2 (popped n self)) as [self'|e] eqn:Hr; [|done].
  apply IH. rewrite resolve_calls in Hr. case_decide; [|done]. injection Hr as <-.
  intros x [[Hx _]%popped_pending|(Hx & _ & Hk)]%adds_pending; [auto|].
  apply pending_kinds; [|done]. by eapply calls_kind.
Qed.

Lemma async_search_scene_independent f env choose fuel entity_id :
  async_search (with_entities_in_scene f env) choose fuel "entity" entity_id new_Searcher
  = async_search env choose fuel "entity" entity_id new_Searcher.
Proof.
  unfold async_search. rewrite drain_scene_independent; [done|].
  intros n [->|Hn]%seed_pending; [by right|]. by apply not_elem_of_empty in Hn.
Qed.

(** The claim fails on [home].  The movie scene holds the sofa light and
    the TV light, and a search entered at the sofa light returns the TV
    light, found through the device of both; the scene also holds a group,
    which a search entered at the scene returns under group and not under
    entity. *)
Lemma scene_entry_expansion_counterexample :
  "light.tv" ∈ entities_in_scene Example.home "scene.movie"
  ∧ "light.sofa" ∈ entities_in_scene Example.home "scene.movie"
  ∧ "scene.movie" ∈ scenes_with_entity Example.home "light.sofa"
  ∧ "light.sofa" ≠ "light.tv"
  ∧ async_search Example.home Example.first_pending 12 "entity" "light.sofa"
      new_Searcher = Some (Returns Example.sofa_related)
  ∧ "light.tv" ∈ getitem Example.sofa_related "entity"
  ∧ "group.lamps" ∈ entities_in_scene Example.home "scene.movie"
  ∧ async_search Example.home Example.first_pending 12 "scene" "scene.movie"
      new_Searcher = Some (Returns Example.movie_related)
  ∧ "group.lamps" ∉ getitem Example.movie_related "entity".
Proof.
  repeat split; try by_evaluation; vm_compute; reflexivity.
Qed.

(** C1, amended. On a finite object graph, a search entered at a scene
    returns under entity every entity the scene holds, the scene itself and
    the entities of the scene, automation, script and group domains apart;
    a search entered at a plain entity returns under scene every scene that
    holds it, and does not expand that scene: the returned mapping is the
    same whatever the scenes hold, so an entity of the scene is in it only
    when it is found some other way. *)
Theorem scene_expanded_only_as_entry env U choose fuel scene_id entity entity0 :
  closed env U →
  ("scene", scene_id) ∈ U →
  ("entity", entity0) ∈ U →
  (size U ≤ fuel)%nat →
  entity ∈ entities_in_scene env scene_id →
  entity ≠ scene_id →
  (split_entity_id env entity).1 ∉ entity_domains →
  scene_id ∈ scenes_with_entity env entity0 →
  (split_entity_id env scene_id).1 = "scene" →
  (split_entity_id env entity0).1 ∉ entity_domains →
  (∃ m X, async_search env choose fuel "scene" scene_id new_Searcher = Some (Returns m)
          ∧ m !! "entity" = Some X ∧ entity ∈ X)
  ∧ (∃ m X, async_search env choose fuel "entity" entity0 new_Searcher = Some (Returns m)
            ∧ m !! "scene" = Some X ∧ scene_id ∈ X
            ∧ ∀ f, async_search (with_entities_in_scene f env) choose fuel
                     "entity" entity0 new_Searcher = Some (Returns m)).
Proof.
  intros Hcl HS HE0 Hsz He Hne Hd Hs Hds Hd0. split.
  - destruct (async_search_terminates env choose U fuel "scene" scene_id Hcl HS Hsz)
      as [o Ho].
    destruct (scene_entry_returns_entity env scene_id entity o He Hne Hd)
      as (m & X & -> & HX & HeX); [by eapply async_search_searches|].
    by exists m, X.
  - destruct (async_search_terminates env choose U fuel "entity" entity0 Hcl HE0 Hsz)
      as [o Ho].
    destruct (entity_entry_returns_scene env entity0 scene_id o Hs Hds Hd0)
      as (m & X & -> & HX & HsX); [by eapply async_search_searches|].
    exists m, X. repeat split; try done.
    intros f. by rewrite async_search_scene_independent.
Qed.

Lemma scene_expanded_only_as_entry_witness :
  (∃ m X, async_search Example.home Example.first_pending 12 "scene" "scene.night"
            new_Searcher = Some (Returns m)
          ∧ m !! "entity" = Some X ∧ "light.porch" ∈ X)
  ∧ (∃ m X, async_search Example.home Example.first_pending 12 "entity" "light.sofa"
              new_Searcher = Some (Returns m)
            ∧ m !! "scene" = Some X ∧ "scene.night" ∈ X
            ∧ ∀ f, async_search (with_entities_in_scene f Example.home)
                     Example.first_pending 12 "entity" "light.sofa" new_Searcher
                   = Some (Returns m)).
Proof.
  apply (scene_expanded_only_as_entry Example.home Example.home_nodes
           Example.first_pending 12 "scene.night" "light.porch" "light.sofa");
    by_evaluation.
Defined.

(** * Further properties of the searcher *)

(** ** The returned mapping, bucket by bucket *)

Lemma related_returned t i self m key j :
  finish t i self = Returns m →
  related m key j ↔ j ∈ returned_bucket t i (results self) key.
Proof.
  intros [_ Hm]%finish_inv. unfold related. rewrite Hm.
  case_decide as He; [|done]. rewrite He.
  split; [done|]. by intros ?%not_elem_of_empty.
Qed.

Lemma forall_entity_domains (P : string → Prop) :
  (∀ d, d ∈ entity_domains → P d)
  ↔ P "scene" ∧ P "automation" ∧ P "script" ∧ P "group".
Proof.
  split.
  - intros H. repeat split; apply H; by_evaluation.
  - intros (H1 & H2 & H3 & H4) d Hd. unfold entity_domains in Hd.
    by repeat (apply elem_of_cons in Hd as [->|Hd]); [..|by apply elem_of_nil in Hd].
Qed.

Lemma returned_bucket_found env t i self key j :
  (∀ n, recorded self n ↔ found env (t, i) n) →
  j ∈ returned_bucket t i (results self) key
  ↔ found env (t, i) (key, j)
    ∧ (key, j) ≠ (t, i)
    ∧ (key = "entity" → ∀ d, d ∈ entity_domains → ¬ found env (t, i) (d, j)).
Proof.
  intros Hf.
  assert (∀ k x, x ∈ getitem (results self) k ↔ found env (t, i) (k, x)) as Hrec
    by (intros k x; apply (Hf (k, x))).
  rewrite forall_entity_domains. unfold returned_bucket, cleaned.
  destruct (decide (key = t)) as [->|Hkt];
    destruct (decide (t = "entity")) as [->|Hte];
    try destruct (decide (key = "entity")) as [->|Hke];
    rewrite ?elem_of_difference, ?elem_of_singleton, !Hrec;
    split; intros H; repeat split; try tauto; try congruence.
  - intros [= ->]. tauto.
  - destruct H as (? & Hne & _). intros ->. by apply Hne.
  - intros [= ->]. tauto.
  - destruct H as (? & Hne & _). intros ->. by apply Hne.
Qed.

(** What a returned mapping holds, in terms of what the search finds. *)
Lemma searches_related env t i m key j :
  searches env t i (Returns m) →
  related m key j
  ↔ found env (t, i) (key, j)
    ∧ (key, j) ≠ (t, i)
    ∧ (key = "entity" → ∀ d, d ∈ entity_domains → ¬ found env (t, i) (d, j)).
Proof.
  intros (s & Hf & Hm)%searches_returns.
  rewrite (related_returned t i s m key j Hm). by apply returned_bucket_found.
Qed.

(** A search that returns was entered at a kind that has a method. *)
Lemma searches_returns_kind env t i m :
  searches env t i (Returns m) → t ∈ item_types.
Proof.
  intros (d & Hd & Ho). destruct (decide (t ∈ item_types)) as [|Hk]; [done|].
  apply (drains_invalid env t i d Hk) in Hd as ->. done.
Qed.

(** With a kind that has a method, the search returns, unless the entry is
    an entity of one of the four domains. *)
Lemma searches_valid_returns env t i o :
  t ∈ item_types →
  (t = "entity" → (split_entity_id env i).1 ∉ entity_domains) →
  searches env t i o →
  ∃ m, o = Returns m.
Proof.
  intros Hk Hd (d & Hdr & ->).
  destruct (drains_valid env (t, i) _ _ (inv_seed env t i) Hk Hdr) as [s ->].
  pose proof (drains_found env _ _ s (inv_seed env t i) Hdr) as Hf.
  assert (i ∈ cleaned (results s) t) as Hin.
  { destruct (decide (t = "entity")) as [->|Hte].
    - apply (plain_entity_cleaned env ("entity", i)); [done|constructor|auto|].
      intros key Hkey [= ->]. by apply not_domain_entity.
    - unfold cleaned. rewrite decide_False by done.
      apply (Hf (t, i)). constructor. }
  simpl. destruct (finish_returns t i s Hin) as (m & -> & _). by exists m.
Qed.

(** What the method of the entry passes to [_add_or_resolve] is returned:
    always for a device, an area or a config entry, and for an entity when
    its id is in none of the four domains and is not the id of an entry of
    these domains. *)
Lemma entry_call_related env t i m k j :
  searches env t i (Returns m) →
  (k, j) ∈ calls env t i →
  (k, j) ≠ (t, i) →
  (k = "entity" →
   ((split_entity_id env j).1 ∉ entity_domains) ∧ (t ∈ entity_domains → j ≠ i)) →
  related m k j.
Proof.
  intros Hs Hc Hne Hent. apply (searches_related env t i m k j Hs).
  split; [|split; [done|]].
  - eapply (found_call env _ (t, i)); [constructor|by left|done].
  - intros Hk d Hd Hfd. destruct (Hent Hk) as [Hplain Hi].
    destruct (found_domain env (t, i) _ Hfd Hd) as [[= -> ->]|Heq].
    + by apply Hi.
    + simpl in Heq. by rewrite Heq in Hplain.
Qed.

(** ** Empty buckets *)

(** X1. The returned mapping has no empty bucket: a kind under which
    nothing is left after the subtractions and the removal of the entry is
    not a key of it. *)
Theorem returned_buckets_nonempty env item_type item_id m key X :
  searches env item_type item_id (Returns m) →
  m !! key = Some X →
  X ≠ ∅.
Proof.
  intros (s & _ & Hf)%searches_returns Hm.
  by destruct (returned_lookup _ _ _ _ _ _ Hf Hm) as [_ ?].
Qed.

Lemma returned_buckets_nonempty_witness :
  Example.movie_related !! "scene" = Some {[ "scene.night" ]}
  ∧ ({[ "scene.night" ]} : gset string) ≠ ∅.
Proof.
  split; [vm_compute; reflexivity|].
  apply (returned_buckets_nonempty Example.home "scene" "scene.movie"
           Example.movie_related "scene").
  - apply (async_search_searches _ Example.first_pending 12).
    vm_compute. reflexivity.
  - vm_compute. reflexivity.
Defined.

(** ** Kinds without a method *)

(** X2. With an entry kind that has no [_resolve_*] method, the first
    iteration of the loop raises [AttributeError] — [async_search] does not
    check the kind before it seeds — for every order of popping and as soon
    as there is fuel for one iteration. *)
Theorem unknown_kind_raises env item_type item_id :
  item_type ∉ item_types →
  (∀ o, searches env item_type item_id o → o = Raises AttributeError)
  ∧ (∀ choose fuel,
       async_search env choose (S fuel) item_type item_id new_Searcher
       = Some (Raises AttributeError)).
Proof.
  intros Hk. split.
  - intros o (d & Hd & ->). by apply (drains_invalid env _ _ _ Hk) in Hd as ->.
  - intros choose fuel. unfold async_search. simpl.
    destruct (set_pop choose ({[(item_type, item_id)]} ∪ ∅)) as [n|] eqn:Hp.
    + apply set_pop_Some in Hp.
      assert (n = (item_type, item_id)) as ->.
      { apply elem_of_union in Hp as [Hp|Hp]; [by apply elem_of_singleton in Hp|].
        by apply not_elem_of_empty in Hp. }
      rewrite resolve_calls. simpl. by rewrite decide_False.
    + apply set_pop_None in Hp. exfalso.
      assert ((item_type, item_id) ∈ ({[(item_type, item_id)]} ∪ ∅ : gset node)) as Hin
        by (apply elem_of_union; left; by apply elem_of_singleton).
      rewrite Hp in Hin. by apply not_elem_of_empty in Hin.
Qed.

Lemma unknown_kind_raises_witness :
  async_search Example.home Example.last_pending 1 "zone" "zone.home" new_Searcher
  = Some (Raises AttributeError).
Proof.
  apply (unknown_kind_raises Example.home "zone" "zone.home"). by_evaluation.
Defined.

(** ** Which entries return *)

(** X3. With an entry kind that has a method, a search never raises
    [AttributeError]: it raises [KeyError] when the entry is an entity whose
    id is in the scene, automation, script or group domain, and returns a
    mapping in every other case, whatever the registries hold. *)
Theorem valid_kind_outcome env item_type item_id o :
  item_type ∈ item_types →
  searches env item_type item_id o →
  (item_type = "entity" → (split_entity_id env item_id).1 ∈ entity_domains →
   o = Raises KeyError)
  ∧ ((item_type = "entity" → (split_entity_id env item_id).1 ∉ entity_domains) →
     ∃ m, o = Returns m).
Proof.
  intros Hk Hs. split.
  - intros -> Hd. by eapply entity_domain_entry_raises.
  - intros Hd. by eapply searches_valid_returns.
Qed.

Lemma valid_kind_outcome_witness :
  ∃ m, async_search Example.home Example.first_pending 12 "device" "hue" new_Searcher
       = Some (Returns m).
Proof.
  destruct (async_search_terminates Example.home Example.first_pending
              Example.home_nodes 12 "device" "hue") as [o Ho]; [by_evaluation..|].
  destruct (valid_kind_outcome Example.home "device" "hue" o) as [_ Hr];
    [by_evaluation|by eapply async_search_searches|].
  destruct Hr as [m ->]; [done|]. exists m. exact Ho.
Defined.

(** ** The returned mapping is what the search finds *)

(** X4. A returned mapping holds an id under a kind exactly when the search
    finds that node (it is reached from the entry through the calls of the
    methods that run), the node is not the entry, and, for the entity
    bucket, the id is found under none of the four entity domains. *)
Theorem returned_exactly_found env item_type item_id m key j :
  searches env item_type item_id (Returns m) →
  related m key j
  ↔ found env (item_type, item_id) (key, j)
    ∧ (key, j) ≠ (item_type, item_id)
    ∧ (key = "entity" →
       ∀ d, d ∈ entity_domains → ¬ found env (item_type, item_id) (d, j)).
Proof. apply searches_related. Qed.

Lemma returned_exactly_found_witness :
  found Example.home ("entity", "light.sofa") ("area", "living_room").
Proof.
  apply (returned_exactly_found Example.home "entity" "light.sofa"
           Example.sofa_related "area" "living_room").
  - apply (async_search_searches _ Example.first_pending 12).
    vm_compute. reflexivity.
  - by_evaluation.
Defined.

Lemma found_kind env entry n :
  found env entry n → n = entry ∨ n.1 ∈ item_types.
Proof.
  induction 1 as [|x m _ _ _ Hm]; [by left|]. right. by eapply calls_kind.
Qed.

(** X5. The keys of a returned mapping are among the eight kinds of the
    websocket schema. *)
Theorem returned_kinds env item_type item_id m key X :
  searches env item_type item_id (Returns m) →
  m !! key = Some X →
  key ∈ item_types.
Proof.
  intros Hs Hm. pose proof Hs as (s & _ & Hfin)%searches_returns.
  destruct (returned_lookup _ _ _ _ _ _ Hfin Hm) as [_ HX].
  apply set_choose_L in HX as [j Hj].
  assert (related m key j) as Hr by (unfold related; by rewrite Hm).
  apply (searches_related env item_type item_id m key j Hs) in Hr as (Hf & _ & _).
  destruct (found_kind env _ _ Hf) as [[= -> _]|Hk]; [|done].
  by eapply searches_returns_kind.
Qed.

Lemma returned_kinds_witness : "config_entry" ∈ item_types.
Proof.
  apply (returned_kinds Example.home "entity" "light.sofa"
           Example.sofa_related "config_entry" {[ "cfg_hue" ]}).
  - apply (async_search_searches _ Example.first_pending 12).
    vm_compute. reflexivity.
  - vm_compute. reflexivity.
Defined.

(** ** Automations and scripts *)

(** X6. A search entered at an automation or at a script returns the empty
    mapping, whatever the registries hold: the two methods have no body, and
    the entry is removed from its bucket. *)
Theorem automation_script_entry_empty env choose fuel item_type item_id :
  item_type = "automation" ∨ item_type = "script" →
  async_search env choose (S fuel) item_type item_id new_Searcher = Some (Returns ∅).
Proof.
  intros Hk.
  assert (calls env item_type item_id = []) as Hc
    by (destruct Hk as [-> | ->]; unfold calls; by kind_decide).
  assert (item_type ∈ item_types) as Hin
    by (destruct Hk as [-> | ->]; by_evaluation).
  destruct (async_search_terminates env choose {[ (item_type, item_id) ]}
              (S fuel) item_type item_id) as [o Ho].
  - intros n ->%elem_of_singleton. simpl. rewrite Hc. constructor.
  - by apply elem_of_singleton.
  - rewrite size_singleton. lia.
  - rewrite Ho. f_equal.
    eapply unresolved_entry_returns_empty; [done|done|by eapply async_search_searches].
Qed.

Lemma automation_script_entry_empty_witness :
  async_search Example.home Example.first_pending 1
    "automation" "automation.wake_up" new_Searcher = Some (Returns ∅).
Proof. apply automation_script_entry_empty. by left. Defined.

(** ** What each method contributes when it is the entry's *)

Lemma calls_area_device env area_id device :
  device ∈ async_entries_for_area env area_id →
  ("device", DeviceEntry.id device) ∈ calls env "area" area_id.
Proof.
  intros Hd. unfold calls. kind_decide. apply list_elem_of_fmap. by exists device.
Qed.

Lemma calls_config_entry_device env config_entry_id device :
  device ∈ device_entries_for_config_entry env config_entry_id →
  ("device", DeviceEntry.id device) ∈ calls env "config_entry" config_entry_id.
Proof.
  intros Hd. unfold calls. kind_decide. apply elem_of_app. left.
  apply list_elem_of_fmap. by exists device.
Qed.

Lemma calls_config_entry_entity env config_entry_id entity :
  entity ∈ entity_entries_for_config_entry env config_entry_id →
  ("entity", EntityEntry.entity_id entity) ∈ calls env "config_entry" config_entry_id.
Proof.
  intros He. unfold calls. kind_decide. apply elem_of_app. right.
  apply list_elem_of_fmap. by exists entity.
Qed.

Lemma calls_group_entity env group_id entity :
  entity ∈ get_entity_ids env group_id →
  ("entity", entity) ∈ calls env "group" group_id.
Proof.
  intros He. unfold calls. kind_decide. apply list_elem_of_fmap. by exists entity.
Qed.

Lemma calls_device_area env device_id device_entry area :
  device_reg_async_get env device_id = Some device_entry →
  DeviceEntry.area_id device_entry = Some area →
  area ≠ "" →
  ("area", area) ∈ calls env "device" device_id.
Proof.
  intros Hd Ha Hne. unfold calls. kind_decide. unfold calls_device.
  rewrite Hd, Ha. simpl. rewrite decide_False by done.
  apply elem_of_app. left. apply elem_of_app. left. by apply list_elem_of_singleton.
Qed.

Lemma calls_device_config_entry env device_id device_entry config_entry :
  device_reg_async_get env device_id = Some device_entry →
  config_entry ∈ DeviceEntry.config_entries device_entry →
  ("config_entry", config_entry) ∈ calls env "device" device_id.
Proof.
  intros Hd Hc. unfold calls. kind_decide. unfold calls_device. rewrite Hd.
  apply elem_of_app. left. apply elem_of_app. right.
  apply list_elem_of_fmap. by exists config_entry.
Qed.

Lemma calls_device_entity env device_id entity :
  entity ∈ async_entries_for_device env device_id →
  ("entity", EntityEntry.entity_id entity) ∈ calls env "device" device_id.
Proof.
  intros He. unfold calls. kind_decide. unfold calls_device.
  apply elem_of_app. right. apply list_elem_of_fmap. by exists entity.
Qed.

Lemma calls_entity_device env entity_id entity_entry device :
  entity_reg_async_get env entity_id = Some entity_entry →
  EntityEntry.device_id entity_entry = Some device →
  device ≠ "" →
  ("device", device) ∈ calls env "entity" entity_id.
Proof.
  intros He Hd Hne. unfold calls. kind_decide. unfold calls_entity.
  rewrite He, Hd. simpl. rewrite decide_False by done.
  rewrite !elem_of_app. right. right. left. left. by apply list_elem_of_singleton.
Qed.

Lemma calls_entity_config_entry env entity_id entity_entry config_entry :
  entity_reg_async_get env entity_id = Some entity_entry →
  EntityEntry.config_entry_id entity_entry = Some config_entry →
  ("config_entry", config_entry) ∈ calls env "entity" entity_id.
Proof.
  intros He Hc. unfold calls. kind_decide. unfold calls_entity.
  rewrite He, Hc. rewrite !elem_of_app. right. right. left. right.
  by apply list_elem_of_singleton.
Qed.

Lemma calls_entity_group env entity_id group_id :
  group_id ∈ groups_with_entity env entity_id →
  ("entity", group_id) ∈ calls env "entity" entity_id.
Proof.
  intros Hg. unfold calls. kind_decide. unfold calls_entity.
  rewrite !elem_of_app. right. left. apply list_elem_of_fmap. by exists group_id.
Qed.

(** X7. A search entered at an area returns, under device, every device
    the device registry lists for the area. *)
Theorem area_entry_returns_devices env area_id device o :
  device ∈ async_entries_for_area env area_id →
  searches env "area" area_id o →
  ∃ m, o = Returns m ∧ related m "device" (DeviceEntry.id device).
Proof.
  intros Hd Hs.
  destruct (searches_valid_returns env "area" area_id o) as [m ->];
    [by_evaluation|done|done|].
  exists m. split; [done|].
  apply (entry_call_related env "area" area_id m); [done| |done|done].
  by apply calls_area_device.
Qed.

Lemma area_entry_returns_devices_witness :
  ∃ m, async_search Example.home Example.first_pending 12 "area" "living_room"
         new_Searcher = Some (Returns m)
       ∧ related m "device" "hue".
Proof.
  destruct (async_search_terminates Example.home Example.first_pending
              Example.home_nodes 12 "area" "living_room") as [o Ho]; [by_evaluation..|].
  destruct (area_entry_returns_devices Example.home "living_room" Example.hue o)
    as (m & -> & Hr); [by_evaluation|by eapply async_search_searches|].
  exists m. split; [exact Ho|exact Hr].
Defined.

(** X8. A search entered at a config entry returns, under device, every
    device registered for it and, under entity, every entity registered for
    it whose id is in none of the four entity domains. *)
Theorem config_entry_returns_devices_entities env config_entry_id o :
  searches env "config_entry" config_entry_id o →
  ∃ m, o = Returns m
       ∧ (∀ device, device ∈ device_entries_for_config_entry env config_entry_id →
                    related m "device" (DeviceEntry.id device))
       ∧ (∀ entity, entity ∈ entity_entries_for_config_entry env config_entry_id →
                    (split_entity_id env (EntityEntry.entity_id entity)).1
                      ∉ entity_domains →
                    related m "entity" (EntityEntry.entity_id entity)).
Proof.
  intros Hs.
  destruct (searches_valid_returns env "config_entry" config_entry_id o) as [m ->];
    [by_evaluation|done|done|].
  exists m. split; [done|]. split.
  - intros device Hd.
    apply (entry_call_related env "config_entry" config_entry_id m); [done| |done|done].
    by apply calls_config_entry_device.
  - intros entity He Hplain.
    apply (entry_call_related env "config_entry" config_entry_id m); [done| |done|].
    + by apply calls_config_entry_entity.
    + intros _. split; [done|]. intros Hk. by apply not_domain_config_entry in Hk.
Qed.

Lemma config_entry_returns_devices_entities_witness :
  ∃ m, async_search Example.home Example.last_pending 12 "config_entry" "cfg_hue"
         new_Searcher = Some (Returns m)
       ∧ related m "device" "hue" ∧ related m "entity" "light.tv".
Proof.
  destruct (async_search_terminates Example.home Example.last_pending
              Example.home_nodes 12 "config_entry" "cfg_hue") as [o Ho];
    [by_evaluation..|].
  destruct (config_entry_returns_devices_entities Example.home "cfg_hue" o)
    as (m & -> & Hd & He); [by eapply async_search_searches|].
  exists m. split; [exact Ho|]. split.
  - apply (Hd Example.hue). by_evaluation.
  - apply (He Example.light_tv); by_evaluation.
Defined.

(** X9. A search entered at a group returns, under entity, every member of
    the group other than the group itself whose id is in none of the four
    entity domains. *)
Theorem group_entry_returns_members env group_id entity o :
  entity ∈ get_entity_ids env group_id →
  entity ≠ group_id →
  (split_entity_id env entity).1 ∉ entity_domains →
  searches env "group" group_id o →
  ∃ m, o = Returns m ∧ related m "entity" entity.
Proof.
  intros He Hne Hplain Hs.
  destruct (searches_valid_returns env "group" group_id o) as [m ->];
    [by_evaluation|done|done|].
  exists m. split; [done|].
  apply (entry_call_related env "group" group_id m); [done| |done|done].
  by apply calls_group_entity.
Qed.

Lemma group_entry_returns_members_witness :
  ∃ m, async_search Example.home Example.first_pending 12 "group" "group.lamps"
         new_Searcher = Some (Returns m)
       ∧ related m "entity" "light.sofa".
Proof.
  destruct (async_search_terminates Example.home Example.first_pending
              Example.home_nodes 12 "group" "group.lamps") as [o Ho];
    [by_evaluation..|].
  destruct (group_entry_returns_members Example.home "group.lamps" "light.sofa" o)
    as (m & -> & Hr); [by_evaluation..|by eapply async_search_searches|].
  exists m. split; [exact Ho|exact Hr].
Defined.

(** X10. A search entered at a device that the device registry has
    returns the area of the device when the area id is not empty, and every
    config entry of the device. *)
Theorem device_entry_returns_area_config_entries env device_id device_entry o :
  device_reg_async_get env device_id = Some device_entry →
  searches env "device" device_id o →
  ∃ m, o = Returns m
       ∧ (∀ area, DeviceEntry.area_id device_entry = Some area → area ≠ "" →
                  related m "area" area)
       ∧ (∀ config_entry,
            config_entry ∈ DeviceEntry.config_entries device_entry →
            related m "config_entry" config_entry).
Proof.
  intros Hd Hs.
  destruct (searches_valid_returns env "device" device_id o) as [m ->];
    [by_evaluation|done|done|].
  exists m. split; [done|]. split.
  - intros area Ha Hne.
    apply (entry_call_related env "device" device_id m); [done| |done|done].
    by eapply calls_device_area.
  - intros config_entry Hc.
    apply (entry_call_related env "device" device_id m); [done| |done|done].
    by eapply calls_device_config_entry.
Qed.

Lemma device_entry_returns_area_config_entries_witness :
  ∃ m, async_search Example.home Example.first_pending 12 "device" "hue"
         new_Searcher = Some (Returns m)
       ∧ related m "area" "living_room" ∧ related m "config_entry" "cfg_hue".
Proof.
  destruct (async_search_terminates Example.home Example.first_pending
              Example.home_nodes 12 "device" "hue") as [o Ho]; [by_evaluation..|].
  destruct (device_entry_returns_area_config_entries
              Example.home "hue" Example.hue o)
    as (m & -> & Ha & Hc); [reflexivity|by eapply async_search_searches|].
  exists m. split; [exact Ho|]. split.
  - by apply Ha.
  - apply Hc. by_evaluation.
Defined.

(** X11. A search entered at a device returns, under entity, every entity
    the entity registry lists for the device whose id is in none of the four
    entity domains, whether the device registry has the device or not. *)
Theorem device_entry_returns_entities env device_id entity o :
  entity ∈ async_entries_for_device env device_id →
  (split_entity_id env (EntityEntry.entity_id entity)).1 ∉ entity_domains →
  searches env "device" device_id o →
  ∃ m, o = Returns m ∧ related m "entity" (EntityEntry.entity_id entity).
Proof.
  intros He Hplain Hs.
  destruct (searches_valid_returns env "device" device_id o) as [m ->];
    [by_evaluation|done|done|].
  exists m. split; [done|].
  apply (entry_call_related env "device" device_id m); [done| |done|].
  - by apply calls_device_entity.
  - intros _. split; [done|]. intros Hk. by apply not_domain_device in Hk.
Qed.

Lemma device_entry_returns_entities_witness :
  device_reg_async_get Example.orphans "gone" = None
  ∧ ∃ m, async_search Example.orphans Example.first_pending 2 "device" "gone"
           new_Searcher = Some (Returns m)
         ∧ related m "entity" "light.shed".
Proof.
  split; [reflexivity|].
  destruct (async_search_terminates Example.orphans Example.first_pending
              Example.orphans_nodes 2 "device" "gone") as [o Ho]; [by_evaluation..|].
  destruct (device_entry_returns_entities Example.orphans "gone" Example.light_shed o)
    as (m & -> & Hr); [by_evaluation..|by eapply async_search_searches|].
  exists m. split; [exact Ho|exact Hr].
Defined.

(** X12. A search entered at an entity that the entity registry has and
    whose id is in none of the four entity domains returns the device of the
    entity when the device id is not empty, and the config entry of the
    entity when it has one, an empty config entry id included. *)
Theorem entity_entry_returns_device_config_entry env entity_id entity_entry o :
  entity_reg_async_get env entity_id = Some entity_entry →
  (split_entity_id env entity_id).1 ∉ entity_domains →
  searches env "entity" entity_id o →
  ∃ m, o = Returns m
       ∧ (∀ device, EntityEntry.device_id entity_entry = Some device →
                    device ≠ "" → related m "device" device)
       ∧ (∀ config_entry,
            EntityEntry.config_entry_id entity_entry = Some config_entry →
            related m "config_entry" config_entry).
Proof.
  intros He Hplain Hs.
  destruct (searches_valid_returns env "entity" entity_id o) as [m ->];
    [by_evaluation|done|done|].
  exists m. split; [done|]. split.
  - intros device Hd Hne.
    apply (entry_call_related env "entity" entity_id m); [done| |done|done].
    by eapply calls_entity_device.
  - intros config_entry Hc.
    apply (entry_call_related env "entity" entity_id m); [done| |done|done].
    by eapply calls_entity_config_entry.
Qed.

Lemma entity_entry_returns_device_config_entry_witness :
  ∃ m, async_search Example.home Example.last_pending 12 "entity" "light.tv"
         new_Searcher = Some (Returns m)
       ∧ related m "device" "hue" ∧ related m "config_entry" "cfg_hue".
Proof.
  destruct (async_search_terminates Example.home Example.last_pending
              Example.home_nodes 12 "entity" "light.tv") as [o Ho]; [by_evaluation..|].
  destruct (entity_entry_returns_device_config_entry
              Example.home "light.tv" Example.light_tv o)
    as (m & -> & Hd & Hc);
    [reflexivity|by_evaluation|by eapply async_search_searches|].
  exists m. split; [exact Ho|]. split; [by apply Hd|by apply Hc].
Defined.

(** X13. A search entered at an entity whose id is in none of the four
    entity domains returns every group that holds the entity under group,
    when the group's id is in the group domain, and does not return it under
    entity. *)
Theorem entity_entry_returns_groups env entity_id group_id o :
  group_id ∈ groups_with_entity env entity_id →
  (split_entity_id env group_id).1 = "group" →
  (split_entity_id env entity_id).1 ∉ entity_domains →
  searches env "entity" entity_id o →
  ∃ m, o = Returns m ∧ related m "group" group_id ∧ ¬ related m "entity" group_id.
Proof.
  intros Hg Hdg Hplain Hs.
  destruct (searches_valid_returns env "entity" entity_id o) as [m ->];
    [by_evaluation|done|done|].
  assert (found env ("entity", entity_id) ("group", group_id)) as Hf.
  { eapply (found_call env _ ("entity", group_id)).
    - eapply (found_call env _ ("entity", entity_id)); [constructor|by left|].
      by apply calls_entity_group.
    - right. simpl. by_evaluation.
    - simpl. rewrite <- Hdg. apply calls_entity_domain. rewrite Hdg. by_evaluation. }
  exists m. split; [done|]. split.
  - apply (searches_related env "entity" entity_id m "group" group_id Hs).
    repeat split; done.
  - intros (_ & _ & Hno)%(searches_related env "entity" entity_id m "entity" group_id Hs).
    apply (Hno eq_refl "group"); [by_evaluation|done].
Qed.

Lemma entity_entry_returns_groups_witness :
  ∃ m, async_search Example.home Example.first_pending 12 "entity" "light.sofa"
         new_Searcher = Some (Returns m)
       ∧ related m "group" "group.lamps" ∧ ¬ related m "entity" "group.lamps".
Proof.
  destruct (async_search_terminates Example.home Example.first_pending
              Example.home_nodes 12 "entity" "light.sofa") as [o Ho];
    [by_evaluation..|].
  destruct (entity_entry_returns_groups Example.home "light.sofa" "group.lamps" o)
    as (m & -> & Hr); [by_evaluation..|by eapply async_search_searches|].
  exists m. split; [exact Ho|exact Hr].
Defined.

(** ** The empty area id *)

Lemma calls_area_nonempty env t i area :
  ("area", area) ∈ calls env t i → area ≠ "".
Proof.
  unfold calls. repeat case_decide; subst.
  - by intros (? & [=] & _)%list_elem_of_fmap.
  - unfold calls_device. intros [Hd|He]%elem_of_app.
    + destruct (device_reg_async_get env i) as [d|]; [|by apply elem_of_nil in Hd].
      apply elem_of_app in Hd as [Ha|Hc].
      * destruct (DeviceEntry.area_id d) as [a|]; simpl in Ha;
          [|by apply elem_of_nil in Ha].
        destruct (decide (a = "")); [by apply elem_of_nil in Ha|].
        by apply list_elem_of_singleton in Ha as [= ->].
      * by apply list_elem_of_fmap in Hc as (? & [=] & _).
    + by apply list_elem_of_fmap in He as (? & [=] & _).
  - unfold calls_entity. rewrite !elem_of_app.
    intros [Hs|[Hg|[Hr|Hd]]].
    + by apply list_elem_of_fmap in Hs as (? & [=] & _).
    + by apply list_elem_of_fmap in Hg as (? & [=] & _).
    + destruct (entity_reg_async_get env i) as [e|]; [|by apply elem_of_nil in Hr].
      apply elem_of_app in Hr as [Hr|Hr].
      * destruct (truthy (EntityEntry.device_id e)); [|by apply elem_of_nil in Hr].
        by apply list_elem_of_singleton in Hr as [=].
      * destruct (EntityEntry.config_entry_id e); [|by apply elem_of_nil in Hr].
        by apply list_elem_of_singleton in Hr as [=].
    + case_decide as Hdom; [|by apply elem_of_nil in Hd].
      apply list_elem_of_singleton in Hd as [= Heq ->].
      rewrite <- Heq in Hdom. by apply not_domain_area in Hdom.
  - by intros (? & [=] & _)%list_elem_of_fmap.
  - by intros (? & [=] & _)%list_elem_of_fmap.
  - intros [Hd|He]%elem_of_app.
    + by apply list_elem_of_fmap in Hd as (? & [=] & _).
    + by apply list_elem_of_fmap in He as (? & [=] & _).
  - by intros ?%elem_of_nil.
Qed.

(** X14. The empty string is never returned as an area: [_resolve_device]
    registers the area of a device only when the area id is truthy, and an
    entry is removed from its own bucket. *)
Theorem empty_area_never_returned env item_type item_id m :
  searches env item_type item_id (Returns m) →
  ¬ related m "area" "".
Proof.
  intros Hs (Hf & Hne & _)%(searches_related env item_type item_id m "area" "" Hs).
  inversion Hf as [Heq|x y Hx Hexp Hy Heq]; [by subst|].
  by apply calls_area_nonempty in Hy.
Qed.

Lemma empty_area_never_returned_witness :
  ¬ related Example.sofa_related "area" "".
Proof.
  apply (empty_area_never_returned Example.home "entity" "light.sofa").
  apply (async_search_searches _ Example.first_pending 12). by_evaluation.
Defined.

(** ** What is never asked *)

Lemma resolve_same_queries env env' search_type search_id self :
  same_device_entity_queries env env' →
  search_type = "device" ∨ search_type = "entity" →
  resolve env' search_type search_id self = resolve env search_type search_id self.
Proof.
  intros [H1 H2 H3 H4 H5 H6] [-> | ->]; unfold resolve; kind_decide; f_equal.
  - unfold _resolve_device. by rewrite H1, H2.
  - unfold _resolve_entity. by rewrite H3, H4, H5, H6.
Qed.

Lemma drain_same_queries env env' choose fuel self :
  same_device_entity_queries env env' →
  (∀ n, n ∈ _to_resolve self → n.1 = "device" ∨ n.1 = "entity") →
  drain env' choose fuel self = drain env choose fuel self.
Proof.
  intros Hsame. revert self.
  induction fuel as [|fuel IH]; intros self Hw; simpl; [done|].
  destruct (set_pop choose (_to_resolve self)) as [n|] eqn:Hp; [|done].
  apply set_pop_Some in Hp. rewrite (resolve_same_queries env env') by auto.
  destruct (resolve env n.1 n.2 (popped n self)) as [self'|e] eqn:Hr; [|done].
  apply IH. rewrite resolve_calls in Hr. case_decide; [|done]. injection Hr as <-.
  intros x [[Hx _]%popped_pending|(Hx & _ & Hk)]%adds_pending; [auto|].
  apply pending_kinds; [|done]. by eapply calls_kind.
Qed.

(** X15. A search entered at a device or at an entity never asks what an
    area, a config entry, a group or a scene holds: with collaborators that
    answer alike the six queries of [_resolve_device] and [_resolve_entity],
    it gives the same outcome, whatever the other five queries answer. *)
Theorem device_entity_entry_ignores_contents env env' choose fuel item_type item_id :
  same_device_entity_queries env env' →
  item_type = "device" ∨ item_type = "entity" →
  async_search env' choose fuel item_type item_id new_Searcher
  = async_search env choose fuel item_type item_id new_Searcher.
Proof.
  intros Hsame Hk. unfold async_search. rewrite (drain_same_queries env env'); try done.
  intros n [->|Hn]%seed_pending; [done|]. by apply not_elem_of_empty in Hn.
Qed.

Lemma device_entity_entry_ignores_contents_witness :
  async_search Example.home_without_contents Example.first_pending 12
    "entity" "light.sofa" new_Searcher
  = async_search Example.home Example.first_pending 12
      "entity" "light.sofa" new_Searcher.
Proof.
  apply device_entity_entry_ignores_contents; [by split|by right].
Defined.

(** ** The effect of [_add_or_resolve] *)

(** X16. After [_add_or_resolve] the result set is the one before with the
    pair added, and the pending set is the one before with the pair added
    when the pair was not in the result set and its kind is not in
    [DONT_RESOLVE]: nothing is ever taken out, and no other bucket or
    pending pair changes. *)
Theorem add_or_resolve_effect item_type item_id self n :
  (recorded (_add_or_resolve item_type item_id self) n
   ↔ recorded self n ∨ n = (item_type, item_id))
  ∧ (n ∈ _to_resolve (_add_or_resolve item_type item_id self)
     ↔ n ∈ _to_resolve self
       ∨ (n = (item_type, item_id) ∧ ¬ recorded self n ∧ item_type ∉ DONT_RESOLVE)).
Proof. split; [apply add_recorded|apply add_pending]. Qed.
